(** * OAuth2Token node: token extraction and batch enrichment

    A shallow embedding of [OAuth2Token.execute]
    (nodes/OAuth2Token/OAuth2Token.node.ts and its compiled form) over an
    explicit JavaScript object store.  Objects live in a heap of cells,
    values are primitives or references, and the host ([this]: credential
    store, OAuth2 request helper, input batch, parameters) is a record of
    functions over an abstract world.

    Conventions.  The awaited host calls are state transformers of the
    world and are recorded in a trace; the records the credential store
    returns are cells of the object store, which the host itself never
    writes.  What is thrown, or what a host call rejects with, is an
    [Error] instance or a primitive value.  The [LoggerProxy] calls do not
    influence the result and are left out, but their arguments are
    evaluated, since reading a property of the caught value can raise.
    [JSON.stringify] and [JSON.parse] are modelled on the abstract syntax
    of the JSON text, with property order the insertion order.  Objects
    have their standard prototypes; a prototype link is not part of a
    cell. *)

From Stdlib Require Import ZArith String DecimalString.
From stdpp Require Import base option list gmap fin_sets.

Open Scope string_scope.
Open Scope list_scope.
Set Warnings "-register-all".

(** ** Values, cells and the heap *)

Definition loc := nat.

(** A JavaScript value: a primitive or a reference to a heap cell.  Numbers
    are the integers, with [VNaN] standing for the non-finite numbers. *)
Inductive value :=
  | VUndef
  | VNull
  | VBool (b : bool)
  | VNum (n : Z)
  | VNaN
  | VStr (s : string)
  | VRef (l : loc).

(** Own enumerable properties, in insertion order. *)
Definition props := list (string * value).

(** An exception value: an [Error] instance with its [name], [message] and
    optional structured [context], or the [NodeOperationError] the node
    constructs, kept with the message and the options it was given. *)
Inductive exn :=
  | JsError (name message : string) (context : option props)
  | NodeOperationError (message : string) (options : props).

(** A primitive that is thrown. *)
Inductive primitive :=
  | PUndef
  | PNull
  | PBool (b : bool)
  | PNum (n : Z)
  | PNaN
  | PStr (s : string).

(** What a [throw] carries, and what a rejected promise is rejected with:
    an [Error] instance or a primitive. *)
Inductive thrown_value :=
  | Err (e : exn)
  | NonError (p : primitive).
Coercion Err : exn >-> thrown_value.

(** A heap cell: a plain object, an array (its indexed elements), or an
    exotic object whose serialisation hook ([toJSON] or a getter) raises. *)
Inductive cell :=
  | CObj (ps : props)
  | CArr (xs : list value)
  | CExotic (e : exn).

Abbreviation heap := (gmap loc cell).

Global Instance value_eq_dec : EqDecision value.
Proof. solve_decision. Defined.

Global Instance exn_eq_dec : EqDecision exn.
Proof. solve_decision. Defined.

Global Instance primitive_eq_dec : EqDecision primitive.
Proof. solve_decision. Defined.

Global Instance thrown_value_eq_dec : EqDecision thrown_value.
Proof. solve_decision. Defined.

Global Instance cell_eq_dec : EqDecision cell.
Proof. solve_decision. Defined.

(** JavaScript truthiness ([ToBoolean]). *)
Definition truthy (v : value) : bool :=
  match v with
  | VUndef | VNull | VNaN => false
  | VBool b => b
  | VNum n => negb (n =? 0)%Z
  | VStr s => negb (String.eqb s "")
  | VRef _ => true
  end.

(** [a || b] and [a && b] on values. *)
Definition js_or (a b : value) : value := if truthy a then a else b.
Definition js_and (a b : value) : value := if truthy a then b else a.
Definition js_not (a : value) : value := VBool (negb (truthy a)).

(** ** Property lists *)

Fixpoint lookup_prop {A} (k : string) (ps : list (string * A)) : option A :=
  match ps with
  | [] => None
  | (k', x) :: r => if String.eqb k k' then Some x else lookup_prop k r
  end.

(** [o[k] = x] on the property list: an existing key keeps its position. *)
Fixpoint set_prop {A} (k : string) (x : A) (ps : list (string * A)) : list (string * A) :=
  match ps with
  | [] => [(k, x)]
  | (k', y) :: r => if String.eqb k k' then (k, x) :: r else (k', y) :: set_prop k x r
  end.

Definition alloc (c : cell) (h : heap) : loc * heap :=
  let l := fresh (dom h) in (l, <[l := c]> h).
Arguments alloc : simpl never.


(** ** Results of fallible steps *)

Inductive result (A : Type) :=
  | Ok (a : A)
  | Throw (t : thrown_value).
Arguments Ok {A} a.
Arguments Throw {A} t.

(** [error.name]. *)
Definition exn_name (e : exn) : string :=
  match e with
  | JsError n _ _ => n
  | NodeOperationError _ _ => "NodeOperationError"
  end.

(** [error.message]. *)
Definition exn_message (e : exn) : string :=
  match e with
  | JsError _ m _ => m
  | NodeOperationError m _ => m
  end.

(** [error.context], when it is an object; the errors of the node itself
    carry their options there. *)
Definition exn_context (e : exn) : option props :=
  match e with
  | JsError _ _ c => c
  | NodeOperationError _ o => Some o
  end.

(** The same error with [c] as its context object. *)
Definition set_context (e : exn) (c : props) : exn :=
  match e with
  | JsError n m _ => JsError n m (Some c)
  | NodeOperationError m _ => NodeOperationError m c
  end.

(** [Error.prototype.toString]. *)
Definition exn_toString (e : exn) : string :=
  let '(n, m) := match e with
                 | JsError n m _ => (n, m)
                 | NodeOperationError m _ => ("NodeOperationError", m)
                 end in
  if String.eqb n "" then m
  else if String.eqb m "" then n
  else (n ++ ": " ++ m)%string.

(** Errors raised by the language runtime itself. *)
Definition TypeError (m : string) : exn := JsError "TypeError" m None.
Definition SyntaxError (m : string) : exn := JsError "SyntaxError" m None.
Definition RangeError (m : string) : exn := JsError "RangeError" m None.

Definition circular_structure : exn :=
  TypeError "Converting circular structure to JSON".
Definition stack_exceeded : exn :=
  RangeError "Maximum call stack size exceeded".
Definition not_valid_json : exn :=
  SyntaxError "undefined is not valid JSON".
Definition cannot_create_property : exn :=
  TypeError "Cannot create property on a primitive value".
Definition cannot_read_properties : exn :=
  TypeError "Cannot read properties of undefined or null".
Definition cannot_set_properties : exn :=
  TypeError "Cannot set properties of undefined or null".
Definition no_such_object : exn :=
  JsError "ReferenceError" "reference to no object" None.
Definition cyclic_prototype : exn :=
  TypeError "Cyclic __proto__ value".

(** ** Reading a caught value *)

Definition nullish_primitive (p : primitive) : bool :=
  match p with PUndef | PNull => true | _ => false end.

(** [String(p)]. *)
Definition primitive_toString (p : primitive) : string :=
  match p with
  | PUndef => "undefined"
  | PNull => "null"
  | PBool true => "true"
  | PBool false => "false"
  | PNum n => NilZero.string_of_int (Z.to_int n)
  | PNaN => "NaN"
  | PStr s => s
  end.

(** [error.message]: the message of an [Error]; [undefined] ([None]) on a
    primitive, and a [TypeError] on [null] and [undefined]. *)
Definition thrown_message (error : thrown_value) : result (option string) :=
  match error with
  | Err e => Ok (Some (exn_message e))
  | NonError p =>
      if nullish_primitive p then Throw cannot_read_properties else Ok None
  end.

(** [error.toString()]. *)
Definition thrown_toString (error : thrown_value) : result string :=
  match error with
  | Err e => Ok (exn_toString e)
  | NonError p =>
      if nullish_primitive p then Throw cannot_read_properties
      else Ok (primitive_toString p)
  end.

(** [error.context]. *)
Definition thrown_context (error : thrown_value) : result (option props) :=
  match error with
  | Err e => Ok (exn_context e)
  | NonError p =>
      if nullish_primitive p then Throw cannot_read_properties else Ok None
  end.

Definition or_default (m d : string) : string :=
  if String.eqb m "" then d else m.

(** [message || d], for a [message] just read. *)
Definition message_or (message : option string) (d : string) : string :=
  match message with
  | Some m => or_default m d
  | None => d
  end.

(** [message] inside a template literal. *)
Definition message_text (message : option string) : string :=
  default "undefined" message.

(** ** JSON texts and [JSON.stringify] *)

(** The abstract syntax of a JSON text. *)
Inductive jtext :=
  | JNull
  | JBool (b : bool)
  | JNum (n : Z)
  | JStr (s : string)
  | JArr (xs : list jtext)
  | JObj (ms : list (string * jtext)).

Section serialize_lists.
Context {A B : Type} (f : A → result (option B)).

(** Members of an object: a property whose value serialises to
    [undefined] is left out; the first exception stops the traversal. *)
Fixpoint ser_props (ps : list (string * A)) : result (list (string * B)) :=
  match ps with
  | [] => Ok []
  | (k, x) :: r =>
      match f x with
      | Throw e => Throw e
      | Ok o =>
          match ser_props r with
          | Throw e => Throw e
          | Ok ms => Ok (match o with Some j => (k, j) :: ms | None => ms end)
          end
      end
  end.

(** Elements of an array: [undefined] is written as [null]. *)
Fixpoint ser_elems (null : B) (xs : list A) : result (list B) :=
  match xs with
  | [] => Ok []
  | x :: r =>
      match f x with
      | Throw e => Throw e
      | Ok o =>
          match ser_elems null r with
          | Throw e => Throw e
          | Ok js => Ok (default null o :: js)
          end
      end
  end.
End serialize_lists.

(** [SerializeJSONProperty]: [stack] holds the objects being serialised
    (the cycle check); [fuel] bounds the nesting depth. *)
Fixpoint SerializeJSONProperty (fuel : nat) (h : heap) (stack : list loc)
    (v : value) : result (option jtext) :=
  match v with
  | VUndef => Ok None
  | VNull => Ok (Some JNull)
  | VBool b => Ok (Some (JBool b))
  | VNum n => Ok (Some (JNum n))
  | VNaN => Ok (Some JNull)
  | VStr s => Ok (Some (JStr s))
  | VRef l =>
      match fuel with
      | 0 => Throw stack_exceeded
      | S fuel' =>
          if decide (l ∈ stack) then Throw circular_structure
          else
            match h !! l with
            | None => Throw no_such_object
            | Some (CExotic e) => Throw e
            | Some (CObj ps) =>
                match ser_props (SerializeJSONProperty fuel' h (l :: stack)) ps with
                | Throw e => Throw e
                | Ok ms => Ok (Some (JObj ms))
                end
            | Some (CArr xs) =>
                match ser_elems (SerializeJSONProperty fuel' h (l :: stack)) JNull xs with
                | Throw e => Throw e
                | Ok js => Ok (Some (JArr js))
                end
            end
      end
  end.

(** [JSON.stringify(v)]; [None] is the result [undefined].  The stack of
    open objects never repeats a cell, so one unit of fuel per cell of the
    heap is enough (see [SerializeJSONProperty_fuel]). *)
Definition JSON_stringify (h : heap) (v : value) : result (option jtext) :=
  SerializeJSONProperty (S (size (dom h))) h [] v.

(** ** [JSON.parse] *)

Section parse_lists.
Context (f : jtext → heap → value * heap).

Fixpoint parse_elems (xs : list jtext) (h : heap) : list value * heap :=
  match xs with
  | [] => ([], h)
  | x :: r =>
      let '(v, h1) := f x h in
      let '(vs, h2) := parse_elems r h1 in
      (v :: vs, h2)
  end.

(** Members are defined in order on the new object: a repeated key keeps
    its first position and its last value. *)
Fixpoint parse_members (ms : list (string * jtext)) (acc : props) (h : heap)
    : props * heap :=
  match ms with
  | [] => (acc, h)
  | (k, x) :: r =>
      let '(v, h1) := f x h in
      parse_members r (set_prop k v acc) h1
  end.
End parse_lists.

(** Building the value of a JSON text: every object and array is a newly
    allocated cell. *)
Fixpoint parse_value (j : jtext) (h : heap) : value * heap :=
  match j with
  | JNull => (VNull, h)
  | JBool b => (VBool b, h)
  | JNum n => (VNum n, h)
  | JStr s => (VStr s, h)
  | JArr xs =>
      let '(vs, h1) := parse_elems parse_value xs h in
      let '(l, h2) := alloc (CArr vs) h1 in
      (VRef l, h2)
  | JObj ms =>
      let '(ps, h1) := parse_members parse_value ms [] h in
      let '(l, h2) := alloc (CObj ps) h1 in
      (VRef l, h2)
  end.

(** [JSON.parse(text)], where [text] is what [JSON.stringify] returned. *)
Definition JSON_parse (text : option jtext) (h : heap) : result value * heap :=
  match text with
  | None => (Throw not_valid_json, h)
  | Some j => let '(v, h') := parse_value j h in (Ok v, h')
  end.

(** ** Structural contents of a value *)

(** The tree a value unfolds to: what a deep comparison sees. *)
Inductive tree :=
  | TUndef
  | TNull
  | TBool (b : bool)
  | TNum (n : Z)
  | TNaN
  | TStr (s : string)
  | TExotic (e : exn)
  | TArr (xs : list tree)
  | TObj (ps : list (string * tree)).

Definition prim_tree (v : value) : tree :=
  match v with
  | VUndef => TUndef
  | VNull => TNull
  | VBool b => TBool b
  | VNum n => TNum n
  | VNaN => TNaN
  | VStr s => TStr s
  | VRef _ => TUndef
  end.

Definition is_prim (v : value) : bool :=
  match v with VRef _ => false | _ => true end.

(** Unfolding to depth [n]; [None] when the structure is deeper (in
    particular when it is circular) or refers to no cell. *)
Fixpoint snapshot (n : nat) (h : heap) (v : value) : option tree :=
  match v with
  | VRef l =>
      match n with
      | 0 => None
      | S n' =>
          match h !! l with
          | None => None
          | Some (CExotic e) => Some (TExotic e)
          | Some (CArr xs) => TArr <$> mapM (snapshot n' h) xs
          | Some (CObj ps) =>
              TObj <$> mapM (λ p, pair p.1 <$> snapshot n' h p.2) ps
          end
      end
  | _ => Some (prim_tree v)
  end.

(** [reads h v t]: in heap [h] the value [v] is the finite structure [t]. *)
Definition reads (h : heap) (v : value) (t : tree) : Prop :=
  ∃ n, snapshot n h v = Some t.

(** What [JSON.stringify] makes of a finite structure. *)
Fixpoint jsonify (t : tree) : result (option jtext) :=
  match t with
  | TUndef => Ok None
  | TNull => Ok (Some JNull)
  | TBool b => Ok (Some (JBool b))
  | TNum n => Ok (Some (JNum n))
  | TNaN => Ok (Some JNull)
  | TStr s => Ok (Some (JStr s))
  | TExotic e => Throw e
  | TArr xs =>
      match ser_elems jsonify JNull xs with
      | Throw e => Throw e
      | Ok js => Ok (Some (JArr js))
      end
  | TObj ps =>
      match ser_props jsonify ps with
      | Throw e => Throw e
      | Ok ms => Ok (Some (JObj ms))
      end
  end.

Section members.
Context (f : jtext → tree).
Fixpoint members_tree (ms : list (string * jtext)) (acc : list (string * tree))
    : list (string * tree) :=
  match ms with
  | [] => acc
  | (k, x) :: r => members_tree r (set_prop k (f x) acc)
  end.
End members.

(** The structure [JSON.parse] builds from a JSON text. *)
Fixpoint json_tree (j : jtext) : tree :=
  match j with
  | JNull => TNull
  | JBool b => TBool b
  | JNum n => TNum n
  | JStr s => TStr s
  | JArr xs => TArr (map json_tree xs)
  | JObj ms => TObj (members_tree json_tree ms [])
  end.

(** JSON-representable structures: objects and arrays of null, booleans,
    finite numbers and strings, every object with distinct keys. *)
Fixpoint json_ok (t : tree) : bool :=
  match t with
  | TUndef | TNaN | TExotic _ => false
  | TNull | TBool _ | TNum _ | TStr _ => true
  | TArr xs => forallb json_ok xs
  | TObj ps =>
      bool_decide (NoDup (map fst ps)) && forallb (λ p, json_ok p.2) ps
  end.

(** ** The host and the state of one invocation *)

(** [INodeExecutionData]: the data payload, the binary payload and the
    index of the item this one was made from. *)
Record item := Item {
  json : value;
  binary : value;
  pairedItem : option nat;
}.

Record IHttpRequestOptions := HttpRequestOptions {
  method : string;
  url : value;
  ignoreHttpStatusErrors : bool;
  returnFullResponse : bool;
  timeout : Z;
  headers : props;
}.

(** Calls made to the host, most recent first. *)
Inductive call :=
  | CallGetCredentials (name : string)
  | CallRequestOAuth2 (name : string) (options : IHttpRequestOptions).

(** [this : IExecuteFunctions] over a host world [W]: the input batch, the
    two node parameters, the credential store, the OAuth2-aware request
    helper and the continue-on-failure flag. *)
Record IExecuteFunctions (W : Type) := ExecuteFunctions {
  getInputData : list item;
  param_accessTokenFieldName : string;
  param_dummyUrl : string;
  getCredentials : string → W → result value * W;
  requestOAuth2 : string → IHttpRequestOptions → W → result unit * W;
  continueOnFail : bool;
}.
Arguments getInputData {W} _.
Arguments param_accessTokenFieldName {W} _.
Arguments param_dummyUrl {W} _.
Arguments getCredentials {W} _ _ _.
Arguments requestOAuth2 {W} _ _ _ _.
Arguments continueOnFail {W} _.

(** The object store, the host world, the host calls made so far and the
    two mutable locals of [execute]. *)
Record state (W : Type) := State {
  st_heap : heap;
  st_world : W;
  st_calls : list call;
  dummyUrl : value;
  refreshedCredentials : value;
}.
Arguments State {W} _ _ _ _ _.
Arguments st_heap {W} _.
Arguments st_world {W} _.
Arguments st_calls {W} _.
Arguments dummyUrl {W} _.
Arguments refreshedCredentials {W} _.

Definition M (W A : Type) : Type := state W → result A * state W.

Definition ret {W A} (a : A) : M W A := λ s, (Ok a, s).
Definition throw {W A} (t : thrown_value) : M W A := λ s, (Throw t, s).
Definition bind {W A B} (m : M W A) (k : A → M W B) : M W B :=
  λ s, match m s with
       | (Ok a, s') => k a s'
       | (Throw e, s') => (Throw e, s')
       end.
Definition try_catch {W A} (body : M W A) (handler : thrown_value → M W A)
    : M W A :=
  λ s, match body s with
       | (Ok a, s') => (Ok a, s')
       | (Throw e, s') => handler e s'
       end.

Notation "'let*' x ':=' m 'in' k" := (bind m (λ x, k))
  (at level 10, x name, m at level 100, k at level 200).
Notation "m ';;' k" := (bind m (λ _, k))
  (at level 100, k at level 200, right associativity).

Section runtime.
Context {W : Type}.
Implicit Types (s : state W) (this : IExecuteFunctions W).

Definition with_heap (h : heap) s : state W :=
  State h (st_world s) (st_calls s) (dummyUrl s) (refreshedCredentials s).

Definition get_heap : M W heap := λ s, (Ok (st_heap s), s).
Definition get_dummyUrl : M W value := λ s, (Ok (dummyUrl s), s).
Definition get_refreshedCredentials : M W value :=
  λ s, (Ok (refreshedCredentials s), s).
Definition set_dummyUrl (v : value) : M W unit :=
  λ s, (Ok (), State (st_heap s) (st_world s) (st_calls s) v (refreshedCredentials s)).
Definition set_refreshedCredentials (v : value) : M W unit :=
  λ s, (Ok (), State (st_heap s) (st_world s) (st_calls s) (dummyUrl s) v).

Definition lift_result {A} (r : result A) : M W A := λ s, (r, s).

(** [await this.getCredentials(name)]. *)
Definition call_getCredentials this (name : string) : M W value :=
  λ s, let '(r, w) := getCredentials this name (st_world s) in
       (r, State (st_heap s) w (CallGetCredentials name :: st_calls s)
                 (dummyUrl s) (refreshedCredentials s)).

(** [await this.helpers.requestOAuth2.call(this, name, options,
    { tokenType: 'Bearer' })]. *)
Definition call_requestOAuth2 this (name : string) (o : IHttpRequestOptions)
    : M W unit :=
  λ s, let '(r, w) := requestOAuth2 this name o (st_world s) in
       (r, State (st_heap s) w (CallRequestOAuth2 name o :: st_calls s)
                 (dummyUrl s) (refreshedCredentials s)).

(** An object literal. *)
Definition new_cell (c : cell) : M W value :=
  λ s, let '(l, h) := alloc c (st_heap s) in (Ok (VRef l), with_heap h s).
End runtime.

(** ** Property access *)

(** The value stored under [k]: [undefined] where the base holds no such
    own property. *)
Definition prop (h : heap) (base : value) (k : string) : value :=
  match base with
  | VRef l =>
      match h !! l with
      | Some (CObj ps) => default VUndef (lookup_prop k ps)
      | _ => VUndef
      end
  | _ => VUndef
  end.

Definition nullish (v : value) : bool :=
  match v with VUndef | VNull => true | _ => false end.

(** [base.k]: reading a property of [undefined] or [null] raises. *)
Definition get_prop (h : heap) (base : value) (k : string) : result value :=
  if nullish base then Throw cannot_read_properties else Ok (prop h base k).

(** [base?.k]. *)
Definition get_prop_opt (h : heap) (base : value) (k : string) : value :=
  if nullish base then VUndef else prop h base k.

(** The key [__proto__] names an accessor that every object inherits from
    [Object.prototype]; an assignment under that key runs the setter of
    the accessor, unless the object has an own property of that name (as
    the objects that [JSON.parse] builds from a member ["__proto__"]
    have). *)
Definition inherited_setter {A} (k : string) (ps : list (string * A)) : bool :=
  String.eqb k "__proto__" &&
  match lookup_prop k ps with Some _ => false | None => true end.

(** [o[k] = x] on the own properties of a plain object: the inherited
    setter stores no own property. *)
Definition store_prop {A} (k : string) (x : A) (ps : list (string * A))
    : list (string * A) :=
  if inherited_setter k ps then ps else set_prop k x ps.

(** The setter of [__proto__] on the object at [l]: a primitive is
    ignored, [null] or an object becomes the prototype, which no cell
    records; an object cannot become its own prototype. *)
Definition set_prototype (h : heap) (l : loc) (x : value) : result heap :=
  match x with
  | VRef l' => if decide (l' = l) then Throw cyclic_prototype else Ok h
  | _ => Ok h
  end.

(** [base[k] = x] in strict mode.  On a boolean, a number or a string the
    inherited setter of [__proto__] does nothing, and any other key
    raises.  Arrays keep only their indexed elements in this model and
    exotic objects have no own data, so a property stored on one of them
    is not recorded. *)
Definition put_prop (h : heap) (base : value) (k : string) (x : value)
    : result heap :=
  match base with
  | VUndef | VNull => Throw cannot_set_properties
  | VBool _ | VNum _ | VNaN | VStr _ =>
      if String.eqb k "__proto__" then Ok h else Throw cannot_create_property
  | VRef l =>
      match h !! l with
      | None => Throw no_such_object
      | Some (CObj ps) =>
          if inherited_setter k ps then set_prototype h l x
          else Ok (<[l := CObj (set_prop k x ps)]> h)
      | Some (CArr _) =>
          if String.eqb k "__proto__" then set_prototype h l x else Ok h
      | Some (CExotic _) => Ok h
      end
  end.

Definition index_key (i : nat) : string := NilZero.string_of_uint (Nat.to_uint i).

Fixpoint string_chars (s : string) : list value :=
  match s with
  | EmptyString => []
  | String c r => VStr (String c EmptyString) :: string_chars r
  end.

(** The own enumerable properties copied by an object spread [{...v}]. *)
Definition own_props (h : heap) (v : value) : props :=
  match v with
  | VRef l =>
      match h !! l with
      | Some (CObj ps) => ps
      | Some (CArr xs) => imap (λ i x, (index_key i, x)) xs
      | _ => []
      end
  | VStr s => imap (λ i x, (index_key i, x)) (string_chars s)
  | _ => []
  end.

Section heap_operations.
Context {W : Type}.

Definition parse (text : option jtext) : M W value :=
  λ s, let '(r, h') := JSON_parse text (st_heap s) in (r, with_heap h' s).

Definition spread (v : value) : M W value :=
  λ s, new_cell (CObj (own_props (st_heap s) v)) s.

Definition assign (base : value) (k : string) (x : value) : M W unit :=
  λ s, match put_prop (st_heap s) base k x with
       | Ok h' => (Ok (), with_heap h' s)
       | Throw e => (Throw e, s)
       end.
End heap_operations.

(** ** [execute] *)

Section execute.
Context {W : Type}.
Implicit Types (s : state W) (this : IExecuteFunctions W).

Definition dummyRequestOptions (dummyUrl : value) : IHttpRequestOptions :=
  {| method := "GET";
     url := dummyUrl;
     ignoreHttpStatusErrors := true;
     returnFullResponse := false;
     timeout := 5000;
     headers := [("Accept", VStr "application/json")] |}.

(** Step 1, the body of the [try]. *)
Definition refreshAttempt this : M W unit :=
  let* initialCredentials := call_getCredentials this "oAuth2Api" in
  let* d := get_dummyUrl in
  (if negb (truthy d) then
     let* h := get_heap in
     let* tokenUrl := lift_result (get_prop h initialCredentials "tokenUrl") in
     let auth := prop h initialCredentials "auth" in
     set_dummyUrl
       (js_or (js_or tokenUrl (get_prop_opt h auth "oauth_token_url")) (VStr ""))
   else ret ());;
  let* d := get_dummyUrl in
  if negb (truthy d) then set_refreshedCredentials initialCredentials
  else call_requestOAuth2 this "oAuth2Api" (dummyRequestOptions d).

(** Step 1 with its [catch]: the message and the string form of the
    caught value are read for the log, then one more fetch is made when
    nothing was obtained, and the message of what that fetch raises is read
    for the log. *)
Definition refreshTrigger this : M W unit :=
  try_catch (refreshAttempt this)
    (λ error,
       let* message := lift_result (thrown_message error) in
       let* text := lift_result (thrown_toString error) in
       let* rc := get_refreshedCredentials in
       if negb (truthy rc) then
         try_catch
           (let* c := call_getCredentials this "oAuth2Api" in
            set_refreshedCredentials c)
           (λ innerError,
              let* message := lift_result (thrown_message innerError) in
              ret ())
       else ret ()).

(** Step 2. *)
Definition credentialFetch this : M W unit :=
  try_catch
    (let* rc := get_refreshedCredentials in
     let* d := get_dummyUrl in
     if truthy (js_or (js_not rc) (js_and d (js_not rc))) then
       let* c := call_getCredentials this "oAuth2Api" in
       set_refreshedCredentials c
     else ret ())
    (λ credentialError,
       let* message := lift_result (thrown_message credentialError) in
       throw (NodeOperationError
                ("Failed to retrieve OAuth2 credentials after refresh attempt: "
                   ++ message_text message)%string [])).

Definition no_token_message : string :=
  "No access token found in the OAuth2 credentials structure even after refresh attempt. Verify credential setup, authorization, and structure (e.g., check if token is nested under `oauthTokenData`).".

(** The probes of step 3, in the order of the [if] chain.  They run on a
    truthy [rc], and [tokenData] is read only when truthy, so no property
    read raises. *)
Definition probeToken (h : heap) (rc : value) : value :=
  if truthy (prop h rc "accessToken") then prop h rc "accessToken"
  else if truthy (prop h rc "access_token") then prop h rc "access_token"
  else if truthy (prop h rc "token") then prop h rc "token"
  else if truthy (prop h rc "oauthTokenData") then
    let tokenData := prop h rc "oauthTokenData" in
    js_or (prop h tokenData "access_token") (prop h tokenData "accessToken")
  else VUndef.

(** Step 3. *)
Definition tokenExtract : M W value :=
  let* rc := get_refreshedCredentials in
  if negb (truthy rc) then
    throw (NodeOperationError "Failed to retrieve OAuth2 credentials." [])
  else
    let* h := get_heap in
    let accessToken := probeToken h rc in
    if negb (truthy accessToken) then
      throw (NodeOperationError no_token_message [])
    else ret accessToken.

(** Step 4, the body of the [try] for one item. *)
Definition buildItem this (accessToken : value) (it : item) (itemIndex : nat)
    : M W item :=
  let* h := get_heap in
  let* text := lift_result (JSON_stringify h (json it)) in
  let* copy := parse text in
  let* bin := (if truthy (binary it) then spread (binary it) else ret VUndef) in
  let newItem := {| json := copy; binary := bin; pairedItem := Some itemIndex |} in
  assign (json newItem) (param_accessTokenFieldName this) accessToken;;
  ret newItem.

(** Step 4, the [catch] for one item. *)
Definition itemFailed this (returnItems : list item) (itemIndex : nat)
    (error : thrown_value) : M W (list item) :=
  if continueOnFail this then
    let* message := lift_result (thrown_message error) in
    let* j := new_cell
                (CObj [("error",
                        VStr (message_or message "Unknown error processing item"))]) in
    let* text := lift_result (thrown_toString error) in
    ret (returnItems ++ [{| json := j; binary := VUndef;
                            pairedItem := Some itemIndex |}])
  else
    let* context := lift_result (thrown_context error) in
    match error, context with
    | Err e, Some context =>
        throw (set_context e
                 (set_prop "itemIndex" (VNum (Z.of_nat itemIndex)) context))
    | _, _ =>
        let* message := lift_result (thrown_message error) in
        let* text := lift_result (thrown_toString error) in
        throw (NodeOperationError
                 (message_or message "Error processing item")
                 [("itemIndex", VNum (Z.of_nat itemIndex));
                  ("message", VStr text)])
    end.

(** Step 4, the loop from [itemIndex] over the remaining [items]. *)
Fixpoint enrichItems this (accessToken : value) (itemIndex : nat)
    (items returnItems : list item) : M W (list item) :=
  match items with
  | [] => ret returnItems
  | it :: rest =>
      let* returnItems' :=
        try_catch
          (let* newItem := buildItem this accessToken it itemIndex in
           ret (returnItems ++ [newItem]))
          (itemFailed this returnItems itemIndex) in
      enrichItems this accessToken (S itemIndex) rest returnItems'
  end.

(** Steps 1 and 2, from the parameters: afterwards the credential record
    is in [refreshedCredentials]. *)
Definition obtainCredentials (fetch : IExecuteFunctions W → M W unit) this
    : M W unit :=
  set_dummyUrl (VStr (param_dummyUrl this));;
  set_refreshedCredentials VUndef;;
  refreshTrigger this;;
  fetch this.

(** Steps 1 to 3: the token, or the fatal error. *)
Definition resolveToken (fetch : IExecuteFunctions W → M W unit) this
    : M W value :=
  obtainCredentials fetch this;;
  tokenExtract.

Definition execute_with (fetch : IExecuteFunctions W → M W unit) this
    : M W (list item) :=
  let* accessToken := resolveToken fetch this in
  enrichItems this accessToken 0 (getInputData this) [].

Definition execute this : M W (list item) := execute_with credentialFetch this.

(** Step 2 with the guard reduced to [!refreshedCredentials]. *)
Definition credentialFetch_simplified this : M W unit :=
  try_catch
    (let* rc := get_refreshedCredentials in
     if truthy (js_not rc) then
       let* c := call_getCredentials this "oAuth2Api" in
       set_refreshedCredentials c
     else ret ())
    (λ credentialError,
       let* message := lift_result (thrown_message credentialError) in
       throw (NodeOperationError
                ("Failed to retrieve OAuth2 credentials after refresh attempt: "
                   ++ message_text message)%string [])).

Definition execute_simplified this : M W (list item) :=
  execute_with credentialFetch_simplified this.
End execute.

(** The probes of the earlier compiled build of the node that the
    repository still holds; the current source says of its own probes
    "Use the same logic as before". *)
Definition probeToken_dist (h : heap) (c : value) : value :=
  if truthy (prop h c "accessToken") then prop h c "accessToken"
  else if truthy (prop h c "access_token") then prop h c "access_token"
  else if truthy (prop h c "token") then prop h c "token"
  else if truthy (js_and (prop h c "oauth") (prop h (prop h c "oauth") "access_token"))
  then prop h (prop h c "oauth") "access_token"
  else if truthy (js_and (prop h c "data") (prop h (prop h c "data") "access_token"))
  then prop h (prop h c "data") "access_token"
  else if truthy (prop h c "oauthTokenData") then
    let tokenData := prop h c "oauthTokenData" in
    js_or (prop h tokenData "access_token") (prop h tokenData "accessToken")
  else VUndef.

(** ** [execute] of the earlier build *)

Section execute_dist.
Context {W : Type}.
Implicit Types (s : state W) (this : IExecuteFunctions W).

Definition no_token_message_dist : string :=
  "No access token available in the OAuth2 credentials. Please check your OAuth2 configuration and ensure the credentials are properly authorized. The credential data does not contain an accessToken, access_token, or token property.".

(** The body of the [try] for one item: the token is written into the
    item's own data, which is then serialised for the log. *)
Definition tagItem_dist this (accessToken : value) (it : item) : M W unit :=
  assign (json it) (param_accessTokenFieldName this) accessToken;;
  let* h := get_heap in
  let* itemJson := lift_result (JSON_stringify h (json it)) in
  ret ().

(** The [catch] for one item: the error record is pushed onto [items].
    The body of the [try] raises [Error] instances only, so the message
    given to [NodeOperationError] is a string. *)
Definition itemFailed_dist this (items : list item) (itemIndex : nat)
    (error : thrown_value) : M W (list item) :=
  if continueOnFail this then
    let* message := lift_result (thrown_message error) in
    let* j := new_cell
                (CObj [("error", VStr (message_or message "Unknown error"))]) in
    ret (items ++ [{| json := j; binary := VUndef;
                      pairedItem := Some itemIndex |}])
  else
    let* context := lift_result (thrown_context error) in
    match error, context with
    | Err e, Some context =>
        throw (set_context e
                 (set_prop "itemIndex" (VNum (Z.of_nat itemIndex)) context))
    | _, _ =>
        let* message := lift_result (thrown_message error) in
        throw (NodeOperationError (default "" message)
                 [("itemIndex", VNum (Z.of_nat itemIndex))])
    end.

(** The loop [for (itemIndex; itemIndex < items.length; itemIndex++)]
    over the array [items], which the [catch] may extend; [fuel] bounds the
    number of tests of the loop condition, [None] is fuel exhausted. *)
Fixpoint enrichInPlace (fuel : nat) this (accessToken : value) (itemIndex : nat)
    (items : list item) (s : state W) : option (result (list item) * state W) :=
  match fuel with
  | 0 => None
  | S fuel' =>
      match items !! itemIndex with
      | None => Some (Ok items, s)
      | Some it =>
          match try_catch (tagItem_dist this accessToken it;; ret items)
                  (itemFailed_dist this items itemIndex) s with
          | (Ok items', s') =>
              enrichInPlace fuel' this accessToken (S itemIndex) items' s'
          | (Throw e, s') => Some (Throw e, s')
          end
      end
  end.

Definition execute_dist (fuel : nat) this (s : state W)
    : option (result (list item) * state W) :=
  match call_getCredentials this "oAuth2Api" s with
  | (Throw e, s1) => Some (Throw e, s1)
  | (Ok oAuth2ApiCredentials, s1) =>
      if nullish oAuth2ApiCredentials then Some (Throw cannot_read_properties, s1)
      else
        let accessToken := probeToken_dist (st_heap s1) oAuth2ApiCredentials in
        if negb (truthy accessToken) then
          Some (Throw (NodeOperationError no_token_message_dist []), s1)
        else enrichInPlace fuel this accessToken 0 (getInputData this) s1
  end.
End execute_dist.

(** A cell after the token was assigned to the object it holds. *)
Definition assigned (field : string) (tok : value) (c : cell) : cell :=
  match c with
  | CObj ps => CObj (store_prop field tok ps)
  | _ => c
  end.

(** Between two stores, every cell is either left alone or has had the
    token assigned. *)
Definition tagged_or_same (field : string) (tok : value) (h h' : heap) : Prop :=
  ∀ l c, h !! l = Some c →
    h' !! l = Some c ∨ h' !! l = Some (assigned field tok c).


(** * Notions used in the statements *)

(** ** Structures made of new cells only *)

(** [h2] has every cell that [h'] added to [h], with the same contents;
    the cells of [h] itself may hold anything in [h2]. *)
Definition keeps_new (h h' h2 : heap) : Prop :=
  ∀ l c, h !! l = None → h' !! l = Some c → h2 !! l = Some c.

(** [v] is the structure [t] in [h'], and this depends on no cell of [h]:
    whatever is later written to the cells of [h], [v] still reads [t]. *)
Definition fresh_reads (h h' : heap) (v : value) (t : tree) : Prop :=
  ∀ h2, keeps_new h h' h2 → reads h2 v t.

(** The data of an enriched copy: the token assigned under the field
    name. *)
Definition with_token (field : string) (accessToken : value) (t : tree) : tree :=
  match t with
  | TObj ps => TObj (store_prop field (prim_tree accessToken) ps)
  | _ => t
  end.

(** The data of the record that stands for a failed item. *)
Definition error_record_tree (e : exn) : tree :=
  TObj [("error", TStr (or_default (exn_message e) "Unknown error processing item"))].

(** What the failure of item [itemIndex] is turned into when the batch
    is aborted. *)
Definition item_error (itemIndex : nat) (e : exn) : exn :=
  match exn_context e with
  | Some context =>
      set_context e (set_prop "itemIndex" (VNum (Z.of_nat itemIndex)) context)
  | None =>
      NodeOperationError (or_default (exn_message e) "Error processing item")
        [("itemIndex", VNum (Z.of_nat itemIndex)); ("message", VStr (exn_toString e))]
  end.

(** A caught value whose message and string form can be read: an [Error]
    instance, or a primitive other than [null] and [undefined]. *)
Definition readable (t : thrown_value) : bool :=
  match t with
  | Err _ => true
  | NonError p => negb (nullish_primitive p)
  end.

(** A host whose calls, when they fail, fail with such values. *)
Definition readable_host {W} (this : IExecuteFunctions W) : Prop :=
  (∀ name w t w', getCredentials this name w = (Throw t, w') → readable t = true) ∧
  (∀ name o w t w',
     requestOAuth2 this name o w = (Throw t, w') → readable t = true).

Definition is_fetch (c : call) : bool :=
  match c with CallGetCredentials _ => true | _ => false end.
Definition is_request (c : call) : bool :=
  match c with CallRequestOAuth2 _ _ => true | _ => false end.

(** ** Token shapes *)

(** The six shapes the specification lists, in its priority order. *)
Definition recognized_shapes (h : heap) (rc : value) : list value :=
  [ prop h rc "accessToken";
    prop h rc "access_token";
    prop h rc "token";
    prop h (prop h rc "oauth") "access_token";
    prop h (prop h rc "data") "access_token";
    js_or (prop h (prop h rc "oauthTokenData") "access_token")
          (prop h (prop h rc "oauthTokenData") "accessToken") ].

(** The four of them that [execute] probes. *)
Definition probed_shapes (h : heap) (rc : value) : list value :=
  [ prop h rc "accessToken";
    prop h rc "access_token";
    prop h rc "token";
    js_or (prop h (prop h rc "oauthTokenData") "access_token")
          (prop h (prop h rc "oauthTokenData") "accessToken") ].

Fixpoint first_truthy (vs : list value) : value :=
  match vs with
  | [] => VUndef
  | v :: r => if truthy v then v else first_truthy r
  end.

(** ** Concrete hosts and stores *)

(** A credential store that always returns the record at [cred], with a
    request helper that always answers. *)
Definition steady_host (cred : value) (items : list item) (field dummy : string)
    (continue : bool) : IExecuteFunctions unit :=
  {| getInputData := items;
     param_accessTokenFieldName := field;
     param_dummyUrl := dummy;
     getCredentials := λ _ w, (Ok cred, w);
     requestOAuth2 := λ _ _ w, (Ok (), w);
     continueOnFail := continue |}.

Definition start (h : heap) : state unit := State h () [] VUndef VUndef.

(** [{oauth: {access_token: "tok"}}] at cell 1. *)
Definition nested_oauth_store : heap :=
  <[1 := CObj [("oauth", VRef 2)]]> (<[2 := CObj [("access_token", VStr "tok")]]> ∅).

(** [{data: {access_token: "tok"}}] at cell 1. *)
Definition nested_data_store : heap :=
  <[1 := CObj [("data", VRef 2)]]> (<[2 := CObj [("access_token", VStr "tok")]]> ∅).

(** [{accessToken: "a", access_token: "xyz",
      oauthTokenData: {accessToken: "should-not-be-used"}}] at cell 1. *)
Definition three_token_store : heap :=
  <[1 := CObj [("accessToken", VStr "a"); ("access_token", VStr "xyz");
               ("oauthTokenData", VRef 2)]]>
    (<[2 := CObj [("accessToken", VStr "should-not-be-used")]]> ∅).

(** [{access_token: "xyz", oauthTokenData: {accessToken: "should-not-be-used"}}]
    at cell 1. *)
Definition two_token_store : heap :=
  <[1 := CObj [("access_token", VStr "xyz"); ("oauthTokenData", VRef 2)]]>
    (<[2 := CObj [("accessToken", VStr "should-not-be-used")]]> ∅).

(** [{accessToken: "a", access_token: "b"}] at cell 1. *)
Definition both_top_level_store : heap :=
  <[1 := CObj [("accessToken", VStr "a"); ("access_token", VStr "b")]]> ∅.

(** [{clientId: "id"}] at cell 1: a record with no token. *)
Definition tokenless_store : heap := <[1 := CObj [("clientId", VStr "id")]]> ∅.

Definition holding (h : heap) (rc : value) : state unit := State h () [] VUndef rc.

(** A credential record [{accessToken: "abc123"}] at cell 1 and the data
    [{foo: 1}] at cell 5. *)
Definition foo_store : heap :=
  <[1 := CObj [("accessToken", VStr "abc123")]]> (<[5 := CObj [("foo", VNum 1)]]> ∅).

(** The same with [{foo: NaN}] at cell 5. *)
Definition nan_store : heap :=
  <[1 := CObj [("accessToken", VStr "abc123")]]> (<[5 := CObj [("foo", VNaN)]]> ∅).

(** The same with [{accessToken: NaN}] at cell 5. *)
Definition masked_store : heap :=
  <[1 := CObj [("accessToken", VStr "abc123")]]>
    (<[5 := CObj [("accessToken", VNaN)]]> ∅).

(** The same with a structure at cell 5 that contains itself, and an
    object at cell 6 whose serialisation raises an error that has a context. *)
Definition faulty_store : heap :=
  <[1 := CObj [("accessToken", VStr "abc123")]]>
    (<[4 := CObj [("foo", VNum 1)]]>
    (<[5 := CObj [("self", VRef 5)]]>
    (<[6 := CExotic (JsError "NodeApiError" "boom" (Some [("runIndex", VNum 0)]))]> ∅))).


(** A credential store whose every fetch fails with [t]. *)
Definition failing_host (t : thrown_value) (items : list item)
    (field dummy : string) (continue : bool) : IExecuteFunctions unit :=
  {| getInputData := items;
     param_accessTokenFieldName := field;
     param_dummyUrl := dummy;
     getCredentials := λ _ w, (Throw t, w);
     requestOAuth2 := λ _ _ w, (Ok (), w);
     continueOnFail := continue |}.

(** A credential store that hands out the stale record until the first
    request through the OAuth2 helper, and the fresh record afterwards; the
    world is the flag [refreshed].  The request itself fails when [probe]
    is an error. *)
Definition refreshing_host (stale fresh_one : value) (probe : result unit)
    (items : list item) (field dummy : string) (continue : bool)
    : IExecuteFunctions bool :=
  {| getInputData := items;
     param_accessTokenFieldName := field;
     param_dummyUrl := dummy;
     getCredentials := λ _ (refreshed : bool),
       (Ok (if refreshed then fresh_one else stale), refreshed);
     requestOAuth2 := λ _ _ _, (probe, true);
     continueOnFail := continue |}.

(** A stale record at cell 1, a fresh record at cell 2, both naming a
    token endpoint, and the data [{foo: 1}] at cell 5. *)
Definition refresh_store : heap :=
  <[1 := CObj [("accessToken", VStr "old"); ("tokenUrl", VStr "https://id/token")]]>
    (<[2 := CObj [("accessToken", VStr "new"); ("tokenUrl", VStr "https://id/token")]]>
    (<[5 := CObj [("foo", VNum 1)]]> ∅)).

(** A record at cell 1 with an attachment at cell 7 that refers to the
    cell 8. *)
Definition binary_store : heap :=
  <[1 := CObj [("accessToken", VStr "abc123")]]>
    (<[5 := CObj [("foo", VNum 1)]]>
    (<[7 := CObj [("file", VRef 8)]]>
    (<[8 := CObj [("mimeType", VStr "text/plain")]]> ∅))).

(** The record [{oauth: {access_token: "tok"}}] at cell 1, the data
    [{foo: 1}] at cell 4, a structure at cell 5 that contains itself and an
    object at cell 6 whose serialisation raises. *)
Definition nested_oauth_batch_store : heap :=
  <[1 := CObj [("oauth", VRef 2)]]>
    (<[2 := CObj [("access_token", VStr "tok")]]>
    (<[4 := CObj [("foo", VNum 1)]]>
    (<[5 := CObj [("self", VRef 5)]]>
    (<[6 := CExotic (JsError "NodeApiError" "boom" (Some [("runIndex", VNum 0)]))]> ∅)))).


(** * Properties *)

(** ** Induction over nested structures *)

Lemma jtext_nested_ind (P : jtext → Prop) :
  P JNull → (∀ b, P (JBool b)) → (∀ n, P (JNum n)) → (∀ s, P (JStr s)) →
  (∀ xs, Forall P xs → P (JArr xs)) →
  (∀ ms, Forall (λ m, P m.2) ms → P (JObj ms)) →
  ∀ j, P j.
Proof.
  intros Hnull Hbool Hnum Hstr Harr Hobj. fix IH 1. intros [| b | n | s | xs | ms].
  - exact Hnull.
  - apply Hbool.
  - apply Hnum.
  - apply Hstr.
  - apply Harr. induction xs as [|x r IHr]; constructor; [apply IH|exact IHr].
  - apply Hobj. induction ms as [|[k x] r IHr]; constructor; [apply IH|exact IHr].
Qed.

Lemma tree_nested_ind (P : tree → Prop) :
  P TUndef → P TNull → (∀ b, P (TBool b)) → (∀ n, P (TNum n)) → P TNaN →
  (∀ s, P (TStr s)) → (∀ e, P (TExotic e)) →
  (∀ xs, Forall P xs → P (TArr xs)) →
  (∀ ps, Forall (λ m, P m.2) ps → P (TObj ps)) →
  ∀ t, P t.
Proof.
  intros Hundef Hnull Hbool Hnum Hnan Hstr Hexo Harr Hobj. fix IH 1.
  intros [| | b | n | | s | e | xs | ps].
  - exact Hundef.
  - exact Hnull.
  - apply Hbool.
  - apply Hnum.
  - exact Hnan.
  - apply Hstr.
  - apply Hexo.
  - apply Harr. induction xs as [|x r IHr]; constructor; [apply IH|exact IHr].
  - apply Hobj. induction ps as [|[k x] r IHr]; constructor; [apply IH|exact IHr].
Qed.

(** ** Property lists *)

Lemma set_prop_keys_in {A} k (x : A) ps :
  k ∈ map fst ps → map fst (set_prop k x ps) = map fst ps.
Proof.
  induction ps as [|[k' y] r IH]; simpl; [by rewrite elem_of_nil|].
  destruct (String.eqb k k') eqn:E; simpl.
  - apply String.eqb_eq in E. by subst.
  - apply String.eqb_neq in E. rewrite elem_of_cons.
    intros [?|?]; [done|]. by rewrite IH.
Qed.

Lemma set_prop_keys_notin {A} k (x : A) ps :
  k ∉ map fst ps → set_prop k x ps = ps ++ [(k, x)].
Proof.
  induction ps as [|[k' y] r IH]; simpl; [done|].
  rewrite not_elem_of_cons. intros [Hne Hr].
  destruct (String.eqb k k') eqn:E.
  - apply String.eqb_eq in E. done.
  - by rewrite IH.
Qed.

Lemma lookup_set_prop_eq {A} k (x : A) ps : lookup_prop k (set_prop k x ps) = Some x.
Proof.
  induction ps as [|[k' y] r IH]; simpl.
  - by rewrite String.eqb_refl.
  - destruct (String.eqb k k') eqn:E; simpl; [by rewrite String.eqb_refl|].
    by rewrite E.
Qed.


Lemma set_prop_Forall2 {A B} (R : A → B → Prop) k x y ps qs :
  Forall2 (λ p q, p.1 = q.1 ∧ R p.2 q.2) ps qs → R x y →
  Forall2 (λ p q, p.1 = q.1 ∧ R p.2 q.2) (set_prop k x ps) (set_prop k y qs).
Proof.
  intros HF Hxy. induction HF as [|[k1 a] [k2 b] ps qs [Hk Hab] HF IH]; simpl in *.
  - by constructor.
  - subst k2. destruct (String.eqb k k1); constructor; auto.
Qed.

(** ** Unfolding: fuel and heap extension *)

Lemma snapshot_S n h v t : snapshot n h v = Some t → snapshot (S n) h v = Some t.
Proof.
  revert v t. induction n as [|n IH]; intros v t.
  - destruct v; simpl; try done.
  - destruct v as [| | | | | |l]; try done.
    intros H. simpl in H. change (snapshot (S (S n)) h (VRef l)) with
      (match h !! l with
       | None => None
       | Some (CExotic e) => Some (TExotic e)
       | Some (CArr xs) => TArr <$> mapM (snapshot (S n) h) xs
       | Some (CObj ps) => TObj <$> mapM (λ p, pair p.1 <$> snapshot (S n) h p.2) ps
       end).
    destruct (h !! l) as [[ps|xs|e]|]; try done.
    + destruct (mapM _ ps) as [ts|] eqn:E; [|done]. simpl in H.
      apply mapM_Some in E.
      assert (mapM (λ p, pair p.1 <$> snapshot (S n) h p.2) ps = Some ts) as ->; [|done].
      apply mapM_Some. eapply Forall2_impl; [exact E|].
      intros [k x] q Hq. simpl in *.
      destruct (snapshot n h x) eqn:Ex; [|done]. by rewrite (IH _ _ Ex).
    + destruct (mapM _ xs) as [ts|] eqn:E; [|done]. simpl in H.
      apply mapM_Some in E.
      assert (mapM (snapshot (S n) h) xs = Some ts) as ->; [|done].
      apply mapM_Some. eapply Forall2_impl; [exact E|]. auto.
Qed.

Lemma snapshot_le n m h v t : n ≤ m → snapshot n h v = Some t → snapshot m h v = Some t.
Proof. induction 1; auto using snapshot_S. Qed.

Lemma snapshot_det n m h v t u :
  snapshot n h v = Some t → snapshot m h v = Some u → t = u.
Proof.
  intros Hn Hm.
  apply (snapshot_le n (n `max` m)) in Hn; [|lia].
  apply (snapshot_le m (n `max` m)) in Hm; [|lia]. congruence.
Qed.

Lemma reads_det h v t u : reads h v t → reads h v u → t = u.
Proof. intros [n Hn] [m Hm]. eauto using snapshot_det. Qed.

Lemma snapshot_weaken n h h' v t :
  h ⊆ h' → snapshot n h v = Some t → snapshot n h' v = Some t.
Proof.
  intros Hsub. revert v t. induction n as [|n IH]; intros v t.
  - by destruct v.
  - destruct v as [| | | | | |l]; try done. simpl.
    destruct (h !! l) as [c|] eqn:El; [|done].
    rewrite (lookup_weaken _ _ _ _ El Hsub).
    destruct c as [ps|xs|e]; try done.
    + destruct (mapM _ ps) as [ts|] eqn:E; [|done]. intros H.
      apply mapM_Some in E.
      assert (mapM (λ p, pair p.1 <$> snapshot n h' p.2) ps = Some ts) as ->; [|done].
      apply mapM_Some. eapply Forall2_impl; [exact E|].
      intros [k x] q Hq. simpl in *.
      destruct (snapshot n h x) eqn:Ex; [|done]. by rewrite (IH _ _ Ex).
    + destruct (mapM _ xs) as [ts|] eqn:E; [|done]. intros H.
      apply mapM_Some in E.
      assert (mapM (snapshot n h') xs = Some ts) as ->; [|done].
      apply mapM_Some. eapply Forall2_impl; [exact E|]. auto.
Qed.

Lemma reads_weaken h h' v t : h ⊆ h' → reads h v t → reads h' v t.
Proof. intros ? [n ?]. exists n. eauto using snapshot_weaken. Qed.

Lemma reads_prim h v : is_prim v = true → reads h v (prim_tree v).
Proof. intros. exists 0. by destruct v. Qed.

(** A common depth for the members of an object or array. *)
Lemma Forall2_reads_fuel {A B} (f : A → value) (g : B → tree) h (xs : list A) (ts : list B) :
  Forall2 (λ x t, reads h (f x) (g t)) xs ts →
  ∃ n, Forall2 (λ x t, snapshot n h (f x) = Some (g t)) xs ts.
Proof.
  induction 1 as [|x t xs ts [n Hn] _ [m Hm]].
  - exists 0. constructor.
  - exists (n `max` m). constructor.
    + eapply snapshot_le; [|exact Hn]. lia.
    + eapply Forall2_impl; [exact Hm|]. intros ?? H.
      eapply snapshot_le; [|exact H]. lia.
Qed.

Lemma reads_obj h l ps ts :
  h !! l = Some (CObj ps) →
  Forall2 (λ p q, p.1 = q.1 ∧ reads h p.2 q.2) ps ts →
  reads h (VRef l) (TObj ts).
Proof.
  intros Hl HF.
  destruct (Forall2_reads_fuel snd snd h ps ts) as [n Hn].
  { eapply Forall2_impl; [exact HF|]. by intros ?? [??]. }
  exists (S n). simpl. rewrite Hl.
  assert (mapM (λ p, pair p.1 <$> snapshot n h p.2) ps = Some ts) as ->; [|done].
  apply mapM_Some. clear Hl.
  revert Hn. induction HF as [|[k x] [k' t] ps ts [Hk _] HF IH]; intros Hn.
  - constructor.
  - apply Forall2_cons in Hn as [Hx Hn]. simpl in *. subst k'.
    constructor; [simpl; by rewrite Hx|auto].
Qed.

Lemma reads_arr h l xs ts :
  h !! l = Some (CArr xs) →
  Forall2 (reads h) xs ts →
  reads h (VRef l) (TArr ts).
Proof.
  intros Hl HF.
  destruct (Forall2_reads_fuel id id h xs ts) as [n Hn]; [done|].
  exists (S n). simpl. rewrite Hl.
  assert (mapM (snapshot n h) xs = Some ts) as ->; [|done].
  by apply mapM_Some.
Qed.

(** ** Structures made of new cells only *)

Lemma keeps_new_refl h h' : keeps_new h h' h'.
Proof. by intros l c _ ?. Qed.

Lemma fresh_reads_reads h h' v t : fresh_reads h h' v t → reads h' v t.
Proof. intros H. apply H, keeps_new_refl. Qed.

Lemma lookup_None_weaken (h h' : heap) l : h ⊆ h' → h' !! l = None → h !! l = None.
Proof.
  intros Hsub Hl. destruct (h !! l) as [c|] eqn:E; [|done].
  by rewrite (lookup_weaken _ _ _ _ E Hsub) in Hl.
Qed.

Lemma fresh_reads_mono h0 h h' h'' v t :
  h0 ⊆ h → h' ⊆ h'' → fresh_reads h h' v t → fresh_reads h0 h'' v t.
Proof.
  intros H0 H1 Hr h2 Hk. apply Hr. intros l c Hl Hc.
  apply Hk; [|by eapply lookup_weaken].
  destruct (h0 !! l) as [c0|] eqn:E; [|done].
  by rewrite (lookup_weaken _ _ _ _ E H0) in Hl.
Qed.

Lemma fresh_reads_prim h h' v : is_prim v = true → fresh_reads h h' v (prim_tree v).
Proof. intros ? h2 _. by apply reads_prim. Qed.

Lemma alloc_spec c h l h' :
  alloc c h = (l, h') → h !! l = None ∧ h' = <[l := c]> h ∧ h ⊆ h'.
Proof.
  unfold alloc. intros [= <- <-].
  assert (h !! fresh (dom h) = None) as Hl.
  { apply not_elem_of_dom, is_fresh. }
  split_and!; [done..|]. by apply insert_subseteq.
Qed.

Lemma parse_elems_spec xs :
  Forall (λ j, ∀ h v h', parse_value j h = (v, h') →
                 h ⊆ h' ∧ fresh_reads h h' v (json_tree j)) xs →
  ∀ h vs h', parse_elems parse_value xs h = (vs, h') →
    h ⊆ h' ∧ Forall2 (fresh_reads h h') vs (map json_tree xs).
Proof.
  induction 1 as [|x r Hx _ IH]; intros h vs h'; simpl.
  - intros [= <- <-]. split; [done|constructor].
  - destruct (parse_value x h) as [v h1] eqn:E1.
    destruct (parse_elems parse_value r h1) as [vs' h2] eqn:E2.
    intros [= <- <-].
    destruct (Hx _ _ _ E1) as [S1 R1]. destruct (IH _ _ _ E2) as [S2 R2].
    split; [by etrans|]. constructor.
    + eapply fresh_reads_mono; [| |exact R1]; done.
    + eapply Forall2_impl; [exact R2|]. intros ???.
      eapply fresh_reads_mono; [| |eassumption]; done.
Qed.

Lemma parse_members_spec ms :
  Forall (λ m, ∀ h v h', parse_value m.2 h = (v, h') →
                 h ⊆ h' ∧ fresh_reads h h' v (json_tree m.2)) ms →
  ∀ h0 h acc tacc ps h',
    parse_members parse_value ms acc h = (ps, h') →
    h0 ⊆ h →
    Forall2 (λ p q, p.1 = q.1 ∧ fresh_reads h0 h p.2 q.2) acc tacc →
    h ⊆ h' ∧
    Forall2 (λ p q, p.1 = q.1 ∧ fresh_reads h0 h' p.2 q.2) ps
      (members_tree json_tree ms tacc).
Proof.
  induction 1 as [|[k x] r Hx _ IH]; intros h0 h acc tacc ps h'; simpl.
  - intros [= <- <-] _ HF. done.
  - destruct (parse_value x h) as [v h1] eqn:E1. intros E2 H0 HF.
    destruct (Hx _ _ _ E1) as [S1 R1]. simpl in *.
    destruct (IH h0 h1 _ (set_prop k (json_tree x) tacc) _ _ E2) as [S2 R2].
    + by etrans.
    + apply (set_prop_Forall2 (fresh_reads h0 h1)).
      * eapply Forall2_impl; [exact HF|]. intros ?? [??]. split; [done|].
        eapply fresh_reads_mono; [| |eassumption]; done.
      * eapply fresh_reads_mono; [| |exact R1]; done.
    + split; [by etrans|done].
Qed.

Lemma fresh_reads_new_obj h h1 l ps ts :
  h ⊆ h1 → h1 !! l = None →
  Forall2 (λ p q, p.1 = q.1 ∧ fresh_reads h h1 p.2 q.2) ps ts →
  fresh_reads h (<[l := CObj ps]> h1) (VRef l) (TObj ts).
Proof.
  intros Hsub Hl HF h2 Hk.
  assert (keeps_new h h1 h2) as Hk1.
  { intros l' c Hl' Hc. apply Hk; [done|].
    rewrite lookup_insert_ne; [done|]. intros ->. congruence. }
  apply reads_obj with ps.
  - apply Hk; [by eapply lookup_None_weaken|]. by rewrite lookup_insert_eq.
  - eapply Forall2_impl; [exact HF|]. intros ?? [??]. split; [done|]. auto.
Qed.

Lemma fresh_reads_new_arr h h1 l xs ts :
  h ⊆ h1 → h1 !! l = None →
  Forall2 (fresh_reads h h1) xs ts →
  fresh_reads h (<[l := CArr xs]> h1) (VRef l) (TArr ts).
Proof.
  intros Hsub Hl HF h2 Hk.
  assert (keeps_new h h1 h2) as Hk1.
  { intros l' c Hl' Hc. apply Hk; [done|].
    rewrite lookup_insert_ne; [done|]. intros ->. congruence. }
  apply reads_arr with xs.
  - apply Hk; [by eapply lookup_None_weaken|]. by rewrite lookup_insert_eq.
  - eapply Forall2_impl; [exact HF|]. auto.
Qed.

(** [JSON.parse] leaves every existing cell as it is and builds its result
    from new cells only. *)
Lemma parse_value_spec j :
  ∀ h v h', parse_value j h = (v, h') →
    h ⊆ h' ∧ fresh_reads h h' v (json_tree j).
Proof.
  induction j as [| b | n | s | xs IH | ms IH] using jtext_nested_ind;
    intros h v h'; cbn [parse_value].
  1-4: intros [= <- <-]; split; [done|]; intros h2 _; by exists 0.
  - destruct (parse_elems parse_value xs h) as [vs h1] eqn:E1.
    destruct (alloc (CArr vs) h1) as [l h2] eqn:E2. intros [= <- <-].
    destruct (parse_elems_spec _ IH _ _ _ E1) as [S1 R1].
    destruct (alloc_spec _ _ _ _ E2) as (Hl & -> & S2).
    split; [by etrans|]. by apply fresh_reads_new_arr.
  - destruct (parse_members parse_value ms [] h) as [ps h1] eqn:E1.
    destruct (alloc (CObj ps) h1) as [l h2] eqn:E2. intros [= <- <-].
    destruct (parse_members_spec _ IH h h [] [] _ _ E1) as [S1 R1]; [done|constructor|].
    destruct (alloc_spec _ _ _ _ E2) as (Hl & -> & S2).
    split; [by etrans|]. by apply fresh_reads_new_obj.
Qed.

(** The object case, with the new root cell exposed. *)
Lemma parse_value_obj ms h v h' :
  parse_value (JObj ms) h = (v, h') →
  ∃ l ps h1, v = VRef l ∧ h' = <[l := CObj ps]> h1 ∧ h ⊆ h1 ∧ h1 !! l = None ∧
    Forall2 (λ p q, p.1 = q.1 ∧ fresh_reads h h1 p.2 q.2) ps
      (members_tree json_tree ms []).
Proof.
  cbn [parse_value]. destruct (parse_members parse_value ms [] h) as [ps h1] eqn:E1.
  destruct (alloc (CObj ps) h1) as [l h2] eqn:E2. intros [= <- <-].
  destruct (parse_members_spec ms) with (h0 := h) (h := h) (acc := @nil (string * value))
    (tacc := @nil (string * tree)) (ps := ps) (h' := h1) as [S1 R1]; try done.
  { apply Forall_forall. intros m _ ???. apply parse_value_spec. }
  destruct (alloc_spec _ _ _ _ E2) as (Hl & -> & S2).
  by exists l, ps, h1.
Qed.

(** ** [JSON.stringify] on finite structures *)

Lemma ser_props_rel {A A' B} (f : A → result (option B)) (g : A' → result (option B)) ps ts :
  Forall2 (λ p q, p.1 = q.1 ∧ f p.2 = g q.2) ps ts →
  ser_props f ps = ser_props g ts.
Proof.
  induction 1 as [|[k x] [k' t] ps ts [Hk Hx] _ IH]; simpl in *; [done|].
  subst k'. by rewrite Hx, IH.
Qed.

Lemma ser_elems_rel {A A' B} (f : A → result (option B)) (g : A' → result (option B)) d xs ts :
  Forall2 (λ x t, f x = g t) xs ts →
  ser_elems f d xs = ser_elems g d ts.
Proof.
  induction 1 as [|x t xs ts Hx _ IH]; simpl in *; [done|].
  by rewrite Hx, IH.
Qed.

Lemma stack_measure (h : heap) (stack : list loc) l c n :
  h !! l = Some c → l ∉ stack →
  size (dom h ∖ list_to_set stack) < S n →
  size (dom h ∖ list_to_set (l :: stack)) < n.
Proof.
  intros Hl Hs Hn.
  assert (dom h ∖ list_to_set (l :: stack) ⊂ dom h ∖ (list_to_set stack : gset loc)) as Hsub.
  { assert (l ∈ dom h) by (apply elem_of_dom; eauto).
    assert (l ∉ (list_to_set stack : gset loc)) by (by rewrite elem_of_list_to_set).
    rewrite list_to_set_cons. split.
    - intros x. rewrite !elem_of_difference, elem_of_union, elem_of_singleton. tauto.
    - intros Hsup. specialize (Hsup l).
      rewrite !elem_of_difference, elem_of_union, elem_of_singleton in Hsup. tauto. }
  apply subset_size in Hsub. lia.
Qed.

(** Beyond one unit per cell not yet on the stack, the fuel has no
    influence on the result. *)
Lemma SerializeJSONProperty_fuel n1 : ∀ n2 h stack v,
  size (dom h ∖ list_to_set stack) < n1 →
  size (dom h ∖ list_to_set stack) < n2 →
  SerializeJSONProperty n1 h stack v = SerializeJSONProperty n2 h stack v.
Proof.
  induction n1 as [|n1 IH]; intros n2 h stack v H1 H2; [lia|].
  destruct n2 as [|n2]; [lia|].
  destruct v as [| | | | | |l]; try done. simpl.
  case_decide; [done|].
  destruct (h !! l) as [c|] eqn:El; [|done].
  assert (∀ x, SerializeJSONProperty n1 h (l :: stack) x
               = SerializeJSONProperty n2 h (l :: stack) x) as Hext.
  { intros x. apply IH; by eapply stack_measure. }
  destruct c as [ps|xs|e]; [| |done].
  - rewrite (ser_props_rel _ (SerializeJSONProperty n2 h (l :: stack)) ps ps); [done|].
    apply Forall2_same_length_lookup_2; [done|]. intros i p q Hp Hq.
    assert (p = q) as -> by congruence. done.
  - rewrite (ser_elems_rel _ (SerializeJSONProperty n2 h (l :: stack)) JNull xs xs); [done|].
    apply Forall2_same_length_lookup_2; [done|]. intros i p q Hp Hq.
    assert (p = q) as -> by congruence. done.
Qed.

Lemma snapshot_minimal m h l t :
  snapshot m h (VRef l) = Some t →
  ∃ k, k < m ∧ snapshot (S k) h (VRef l) = Some t ∧ snapshot k h (VRef l) = None.
Proof.
  induction m as [|m IH]; [done|]. intros Hm.
  destruct (snapshot m h (VRef l)) as [t'|] eqn:E.
  - assert (t' = t) as -> by eauto using snapshot_det.
    destruct IH as (k & ? & ? & ?); [done|]. exists k. split_and!; [lia|done..].
  - exists m. split_and!; [lia|done..].
Qed.

Lemma snapshot_None_le n m h v : n ≤ m → snapshot m h v = None → snapshot n h v = None.
Proof.
  intros Hle Hm. destruct (snapshot n h v) as [t|] eqn:E; [|done].
  by rewrite (snapshot_le _ _ _ _ _ Hle E) in Hm.
Qed.

(** On a value that unfolds to the finite structure [t], serialisation is
    [jsonify t]: the cycle check never fires and the fuel is not exhausted. *)
Lemma SerializeJSONProperty_reads n : ∀ h stack v m t,
  size (dom h ∖ list_to_set stack) < n →
  snapshot m h v = Some t →
  (∀ l', l' ∈ stack → snapshot m h (VRef l') = None) →
  SerializeJSONProperty n h stack v = jsonify t.
Proof.
  induction n as [|n IH]; intros h stack v m t Hn Hm Hstack; [lia|].
  destruct v as [| | | | | |l];
    try (destruct m; simpl in Hm; injection Hm as <-; done).
  destruct (snapshot_minimal _ _ _ _ Hm) as (k & Hk & HS & HN).
  simpl. case_decide as Hin.
  { apply Hstack in Hin. congruence. }
  simpl in HS. destruct (h !! l) as [c|] eqn:El; [|done].
  assert (∀ x tx, snapshot k h x = Some tx →
            SerializeJSONProperty n h (l :: stack) x = jsonify tx) as Hsub.
  { intros x tx Hx. apply (IH h (l :: stack) x k tx); [by eapply stack_measure|done|].
    intros l'. rewrite elem_of_cons. intros [->|Hl']; [done|].
    apply (snapshot_None_le k m); [lia|auto]. }
  destruct c as [ps|xs|e].
  - destruct (mapM _ ps) as [ts|] eqn:E; [|done]. injection HS as <-.
    apply mapM_Some in E. simpl.
    rewrite (ser_props_rel _ jsonify ps ts); [done|].
    eapply Forall2_impl; [exact E|]. intros [k1 x] [k2 tx] H. simpl in *.
    destruct (snapshot k h x) as [tx'|] eqn:Ex; [|done]. simplify_eq/=. eauto.
  - destruct (mapM _ xs) as [ts|] eqn:E; [|done]. injection HS as <-.
    apply mapM_Some in E. simpl.
    rewrite (ser_elems_rel _ jsonify JNull xs ts); [done|].
    eapply Forall2_impl; [exact E|]. eauto.
  - by injection HS as <-.
Qed.

Lemma JSON_stringify_reads h v t : reads h v t → JSON_stringify h v = jsonify t.
Proof.
  intros [m Hm]. unfold JSON_stringify.
  apply SerializeJSONProperty_reads with m; [|done|by intros ? ?%elem_of_nil].
  simpl. rewrite difference_empty_L. lia.
Qed.

(** ** When the JSON round trip gives back the same structure *)

Lemma set_prop_NoDup {A} k (x : A) ps :
  NoDup (map fst ps) → NoDup (map fst (set_prop k x ps)).
Proof.
  intros Hnd. destruct (decide (k ∈ map fst ps)) as [Hin|Hin].
  - by rewrite set_prop_keys_in.
  - rewrite set_prop_keys_notin, map_app by done. simpl.
    apply NoDup_app. split_and!; [done| |apply NoDup_singleton].
    intros k' Hk' ->%list_elem_of_singleton. done.
Qed.

Lemma set_prop_length {A} k (x : A) ps : length (set_prop k x ps) ≤ S (length ps).
Proof.
  induction ps as [|[k' y] r IH]; simpl; [done|].
  destruct (String.eqb k k'); simpl; lia.
Qed.

Lemma members_tree_NoDup f ms acc :
  NoDup (map fst acc) → NoDup (map fst (members_tree f ms acc)).
Proof.
  revert acc. induction ms as [|[k x] r IH]; intros acc Hnd; simpl; [done|].
  by apply IH, set_prop_NoDup.
Qed.

Lemma members_tree_length f ms acc :
  length (members_tree f ms acc) ≤ length acc + length ms.
Proof.
  revert acc. induction ms as [|[k x] r IH]; intros acc; simpl; [lia|].
  specialize (IH (set_prop k (f x) acc)).
  pose proof (set_prop_length k (f x) acc). lia.
Qed.

(** With distinct keys, the members are defined one after the other. *)
Lemma members_tree_distinct f ms acc :
  NoDup (map fst acc ++ map fst ms) →
  members_tree f ms acc = acc ++ map (λ m, (m.1, f m.2)) ms.
Proof.
  revert acc. induction ms as [|[k x] r IH]; intros acc Hnd; simpl.
  - by rewrite app_nil_r.
  - assert (k ∉ map fst acc) as Hk.
    { apply NoDup_app in Hnd as (_ & Hd & _). intros Hin.
      apply (Hd k Hin). simpl. left. }
    rewrite set_prop_keys_notin by done. rewrite IH.
    + by rewrite <-app_assoc.
    + rewrite map_app. simpl. by rewrite <-app_assoc.
Qed.

Lemma ser_props_length {A B} (f : A → result (option B)) ps ms :
  ser_props f ps = Ok ms →
  length ms ≤ length ps ∧
  (length ms = length ps →
   Forall2 (λ p m, p.1 = m.1 ∧ f p.2 = Ok (Some m.2)) ps ms).
Proof.
  revert ms. induction ps as [|[k x] r IH]; intros ms; simpl.
  - intros [= <-]. split; [done|constructor].
  - destruct (f x) as [o|e] eqn:Ex; [|done].
    destruct (ser_props f r) as [ms'|e] eqn:Er; [|done].
    destruct (IH _ eq_refl) as [Hle Hall].
    destruct o as [j|]; intros [= <-]; simpl.
    + split; [lia|]. intros Hlen. constructor; [done|]. apply Hall. lia.
    + split; [lia|]. intros Hlen. lia.
Qed.

Lemma ser_elems_length {A B} (f : A → result (option B)) d xs js :
  ser_elems f d xs = Ok js →
  Forall2 (λ x j, ∃ o, f x = Ok o ∧ j = default d o) xs js.
Proof.
  revert js. induction xs as [|x r IH]; intros js; simpl.
  - intros [= <-]. constructor.
  - destruct (f x) as [o|e] eqn:Ex; [|done].
    destruct (ser_elems f d r) as [js'|e] eqn:Er; [|done].
    intros [= <-]. constructor; eauto.
Qed.

(** A JSON-representable structure survives the round trip unchanged. *)
Lemma json_ok_roundtrip t :
  json_ok t = true → ∃ j, jsonify t = Ok (Some j) ∧ json_tree j = t.
Proof.
  induction t as [| | b | n | | s | e | xs IH | ps IH] using tree_nested_ind;
    simpl; intros Hok; try done; eauto.
  - assert (∃ js, ser_elems jsonify JNull xs = Ok js ∧ map json_tree js = xs)
      as (js & -> & Hjs).
    { induction IH as [|x r Hx _ IHr]; simpl in *; [by exists []|].
      apply andb_prop in Hok as [Hx' Hr].
      destruct (Hx Hx') as (j & -> & Hj). destruct (IHr Hr) as (js & -> & Hjs).
      exists (j :: js). simpl. by rewrite Hj, Hjs. }
    exists (JArr js). simpl. by rewrite Hjs.
  - apply andb_prop in Hok as [Hnd Hall]. apply bool_decide_eq_true in Hnd.
    assert (∃ ms, ser_props jsonify ps = Ok ms ∧
                  map (λ m, (m.1, json_tree m.2)) ms = ps) as (ms & -> & Hms).
    { clear Hnd. induction IH as [|[k x] r Hx _ IHr]; simpl in *; [by exists []|].
      apply andb_prop in Hall as [Hx' Hr].
      destruct (Hx Hx') as (j & -> & Hj). destruct (IHr Hr) as (ms & -> & Hms).
      exists ((k, j) :: ms). simpl. by rewrite Hj, Hms. }
    exists (JObj ms). split; [done|]. simpl.
    rewrite members_tree_distinct; [by rewrite Hms|]. simpl.
    rewrite <-Hms in Hnd. rewrite map_map in Hnd. simpl in Hnd. done.
Qed.

(** Only a JSON-representable structure survives it unchanged. *)
Lemma roundtrip_json_ok t :
  ∀ j, jsonify t = Ok (Some j) → json_tree j = t → json_ok t = true.
Proof.
  induction t as [| | b | n | | s | e | xs IH | ps IH] using tree_nested_ind;
    simpl; intros j Hj Ht; try done.
  - by injection Hj as <-.
  - destruct (ser_elems jsonify JNull xs) as [js|] eqn:E; [|done].
    injection Hj as <-. simpl in Ht. injection Ht as Ht.
    apply ser_elems_length in E. clear -IH E Ht.
    revert Ht IH. induction E as [|x j xs js (o & Hx & Hj) _ IHr]; simpl; [done|].
    intros [= Hjx Hjs]. rewrite Forall_cons. intros [Px Pr].
    rewrite IHr by done. rewrite andb_true_r.
    destruct o as [j'|]; simpl in *; subst j.
    + eauto.
    + simpl in Hjx. subst x. done.
  - destruct (ser_props jsonify ps) as [ms|] eqn:E; [|done].
    injection Hj as <-. simpl in Ht. injection Ht as Ht.
    destruct (ser_props_length _ _ _ E) as [Hle Hall].
    pose proof (members_tree_length json_tree ms []) as Hlen. rewrite Ht in Hlen.
    simpl in Hlen. specialize (Hall ltac:(lia)).
    assert (NoDup (map fst ps)) as Hnd.
    { rewrite <-Ht. apply members_tree_NoDup. constructor. }
    assert (map fst ms = map fst ps) as Hkeys.
    { clear -Hall. induction Hall as [|[??] [??] ?? [??] _ IHr]; simpl in *; [done|].
      by rewrite IHr; subst. }
    rewrite members_tree_distinct in Ht by (simpl; by rewrite Hkeys). simpl in Ht.
    apply andb_true_intro. split; [by apply bool_decide_eq_true|].
    clear -IH Hall Ht. revert Ht IH.
    induction Hall as [|[k x] [k' j] ps ms [Hk Hx] _ IHr]; simpl in *; [done|].
    intros [= _ Hjx Hms]. rewrite Forall_cons. intros [Px Pr]. simpl in *.
    rewrite IHr by done. rewrite andb_true_r. eauto.
Qed.

(** ** Assignment under a key *)

Lemma lookup_prop_rel {A B} (R : A → B → Prop) k ps qs :
  Forall2 (λ p q, p.1 = q.1 ∧ R p.2 q.2) ps qs →
  match lookup_prop k ps, lookup_prop k qs with
  | Some x, Some y => R x y
  | None, None => True
  | _, _ => False
  end.
Proof.
  induction 1 as [|[k1 x] [k2 y] ps qs [Hk Hxy] _ IH]; simpl in *; [done|].
  subst k2. by destruct (String.eqb k k1).
Qed.

Lemma inherited_setter_rel {A B} (R : A → B → Prop) k ps qs :
  Forall2 (λ p q, p.1 = q.1 ∧ R p.2 q.2) ps qs →
  inherited_setter k ps = inherited_setter k qs.
Proof.
  intros HF. unfold inherited_setter. f_equal.
  pose proof (lookup_prop_rel R k ps qs HF) as H.
  by destruct (lookup_prop k ps), (lookup_prop k qs).
Qed.

Lemma store_prop_Forall2 {A B} (R : A → B → Prop) k x y ps qs :
  Forall2 (λ p q, p.1 = q.1 ∧ R p.2 q.2) ps qs → R x y →
  Forall2 (λ p q, p.1 = q.1 ∧ R p.2 q.2) (store_prop k x ps) (store_prop k y qs).
Proof.
  intros HF Hxy. unfold store_prop. rewrite <-(inherited_setter_rel R k ps qs HF).
  destruct (inherited_setter k ps); [done|]. by apply set_prop_Forall2.
Qed.

(** Any key but [__proto__] is stored. *)
Lemma store_prop_other {A} k (x : A) ps :
  k ≠ "__proto__" → store_prop k x ps = set_prop k x ps.
Proof.
  intros Hk. unfold store_prop, inherited_setter.
  apply String.eqb_neq in Hk. by rewrite Hk.
Qed.

(** Under [__proto__] a value is stored only over an own property. *)
Lemma store_prop_proto {A} (x : A) ps :
  store_prop "__proto__" x ps =
  match lookup_prop "__proto__" ps with
  | Some _ => set_prop "__proto__" x ps
  | None => ps
  end.
Proof. unfold store_prop, inherited_setter. simpl. by destruct (lookup_prop _ ps). Qed.

Lemma set_prop_idem {A} k (x : A) ps : set_prop k x (set_prop k x ps) = set_prop k x ps.
Proof.
  induction ps as [|[k' y] r IH]; simpl.
  - by rewrite String.eqb_refl.
  - destruct (String.eqb k k') eqn:E; simpl.
    + by rewrite String.eqb_refl.
    + by rewrite E, IH.
Qed.

Lemma store_prop_idem {A} k (x : A) ps :
  store_prop k x (store_prop k x ps) = store_prop k x ps.
Proof.
  unfold store_prop. destruct (inherited_setter k ps) eqn:E; [by rewrite E|].
  assert (inherited_setter k (set_prop k x ps) = false) as ->.
  { unfold inherited_setter. rewrite lookup_set_prop_eq. apply andb_false_r. }
  apply set_prop_idem.
Qed.

Lemma set_prototype_Ok h l x h' : set_prototype h l x = Ok h' → h' = h.
Proof.
  unfold set_prototype. destruct x as [| | | | | |l']; try by intros [= <-].
  destruct (decide (l' = l)); [done|]. by intros [= <-].
Qed.

Lemma set_prototype_prim h l x : is_prim x = true → set_prototype h l x = Ok h.
Proof. by destruct x. Qed.

Lemma put_prop_obj h l ps k x h' :
  h !! l = Some (CObj ps) →
  put_prop h (VRef l) k x = Ok h' →
  h' = <[l := CObj (store_prop k x ps)]> h.
Proof.
  intros Hl. unfold put_prop, store_prop. rewrite Hl.
  destruct (inherited_setter k ps).
  - intros ->%set_prototype_Ok. by rewrite insert_id.
  - by intros [= <-].
Qed.

Lemma put_prop_obj_prim h l ps k x :
  is_prim x = true →
  h !! l = Some (CObj ps) →
  put_prop h (VRef l) k x = Ok (<[l := CObj (store_prop k x ps)]> h).
Proof.
  intros Hx Hl. unfold put_prop, store_prop. rewrite Hl.
  destruct (inherited_setter k ps); [|done].
  rewrite set_prototype_prim by done. by rewrite insert_id.
Qed.

(** An assignment changes no other cell. *)
Lemma put_prop_other h v k x h' l :
  put_prop h v k x = Ok h' → v ≠ VRef l → h' !! l = h !! l.
Proof.
  unfold put_prop. destruct v as [| | | | | |l0]; try done.
  1-4: by destruct (String.eqb k "__proto__"); intros [= <-].
  intros H Hne. assert (l0 ≠ l) by congruence.
  destruct (h !! l0) as [[ps|xs|e]|] eqn:El; [| | |done].
  - destruct (inherited_setter k ps); [by apply set_prototype_Ok in H as ->|].
    injection H as <-. by rewrite lookup_insert_ne.
  - destruct (String.eqb k "__proto__"); [by apply set_prototype_Ok in H as ->|].
    by injection H as <-.
  - by injection H as <-.
Qed.

(** An assignment creates no cell and removes none. *)
Lemma put_prop_dom h v k x h' : put_prop h v k x = Ok h' → dom h' = dom h.
Proof.
  unfold put_prop. destruct v as [| | | | | |l]; try done.
  1-4: by destruct (String.eqb k "__proto__"); intros [= <-].
  destruct (h !! l) as [[ps|xs|e]|] eqn:El; [| | |done].
  - destruct (inherited_setter k ps); [by intros ->%set_prototype_Ok|].
    intros [= <-]. apply dom_insert_lookup_L. eauto.
  - destruct (String.eqb k "__proto__"); [by intros ->%set_prototype_Ok|].
    by intros [= <-].
  - by intros [= <-].
Qed.

(** ** What the serialisation raises *)

Lemma ser_props_Throw {A B} (f : A → result (option B)) ps t :
  ser_props f ps = Throw t → ∃ p, p ∈ ps ∧ f p.2 = Throw t.
Proof.
  induction ps as [|[k x] r IH]; simpl; [done|].
  destruct (f x) as [o|t'] eqn:Ex.
  - destruct (ser_props f r) as [ms|t'] eqn:Er; [done|]. intros [= ->].
    destruct (IH eq_refl) as (p & Hp & Hf). exists p. split; [by right|done].
  - intros [= ->]. exists (k, x). split; [by left|done].
Qed.

Lemma ser_elems_Throw {A B} (f : A → result (option B)) d xs t :
  ser_elems f d xs = Throw t → ∃ x, x ∈ xs ∧ f x = Throw t.
Proof.
  induction xs as [|x r IH]; simpl; [done|].
  destruct (f x) as [o|t'] eqn:Ex.
  - destruct (ser_elems f d r) as [js|t'] eqn:Er; [done|]. intros [= ->].
    destruct (IH eq_refl) as (y & Hy & Hf). exists y. split; [by right|done].
  - intros [= ->]. exists x. split; [by left|done].
Qed.

(** [JSON.stringify] raises [Error] instances only. *)
Lemma SerializeJSONProperty_raises n : ∀ h stack v t,
  SerializeJSONProperty n h stack v = Throw t → ∃ e : exn, t = Err e.
Proof.
  induction n as [|n IH]; intros h stack v t; destruct v as [| | | | | |l];
    cbn [SerializeJSONProperty]; try done.
  - intros [= <-]. eauto.
  - destruct (decide (l ∈ stack)); [intros [= <-]; eauto|].
    destruct (h !! l) as [[ps|xs|e]|]; [| |intros [= <-]; eauto..].
    + destruct (ser_props _ ps) as [ms|t'] eqn:E; [done|]. intros [= ->].
      apply ser_props_Throw in E as (p & _ & Hp). eauto.
    + destruct (ser_elems _ _ xs) as [js|t'] eqn:E; [done|]. intros [= ->].
      apply ser_elems_Throw in E as (x & _ & Hx). eauto.
Qed.

Lemma JSON_stringify_raises h v t :
  JSON_stringify h v = Throw t → ∃ e : exn, t = Err e.
Proof. apply SerializeJSONProperty_raises. Qed.

Lemma put_prop_raises h v k x t :
  put_prop h v k x = Throw t → ∃ e : exn, t = Err e.
Proof.
  unfold put_prop, set_prototype. intros H.
  repeat match type of H with
         | match ?d with _ => _ end = _ => destruct d
         | (if ?d then _ else _) = _ => destruct d
         end; try done; injection H as <-; eauto.
Qed.

(** ** One item *)

Section item.
Context {W : Type}.
Implicit Types (s : state W) (this : IExecuteFunctions W).

Lemma with_heap_id s : with_heap (st_heap s) s = s.
Proof. by destruct s. Qed.

Lemma spread_spec v h1 s :
  ∃ bin h2, spread v (with_heap h1 s) = (Ok bin, with_heap h2 s) ∧ h1 ⊆ h2.
Proof.
  unfold spread, new_cell. cbn [st_heap with_heap].
  destruct (alloc (CObj (own_props h1 v)) h1) as [l h2] eqn:Ea.
  destruct (alloc_spec _ _ _ _ Ea) as (Hl & -> & ?). eauto.
Qed.

Lemma parse_value_root j h l h' :
  parse_value j h = (VRef l, h') → h !! l = None ∧ is_Some (h' !! l).
Proof.
  destruct j; cbn [parse_value]; try (by intros [=]).
  - destruct (parse_elems parse_value xs h) as [vs hh] eqn:E1.
    destruct (alloc (CArr vs) hh) as [l' hh'] eqn:E2. intros [= -> ->].
    apply alloc_spec in E2 as (? & -> & _).
    apply (parse_elems_spec xs) in E1 as [? _].
    + split; [by eapply lookup_None_weaken|]. by rewrite lookup_insert_eq.
    + apply Forall_forall. intros ? _ ???. apply parse_value_spec.
  - intros (l' & ps & hh & [= <-] & -> & ? & ? & _)%parse_value_obj.
    split; [by eapply lookup_None_weaken|]. by rewrite lookup_insert_eq.
Qed.

Lemma buildItem_inv this tok it i s r s' :
  buildItem this tok it i s = (r, s') →
  ∃ h', s' = with_heap h' s ∧ st_heap s ⊆ h' ∧
    ∀ new, r = Ok new →
      pairedItem new = Some i ∧
      ∃ j, JSON_stringify (st_heap s) (json it) = Ok (Some j) ∧
           (is_prim tok = true →
            fresh_reads (st_heap s) h' (json new)
              (with_token (param_accessTokenFieldName this) tok (json_tree j))).
Proof.
  unfold buildItem, bind, get_heap, lift_result, parse, JSON_parse, assign.
  destruct (JSON_stringify (st_heap s) (json it)) as [[j|]|e] eqn:Ej.
  2,3: intros [= <- <-]; exists (st_heap s); by rewrite with_heap_id.
  destruct (parse_value j (st_heap s)) as [v h1] eqn:Ep.
  destruct (parse_value_spec _ _ _ _ Ep) as [S1 R1].
  assert (∃ bin h2, (if truthy (binary it) then spread (binary it) else ret VUndef)
                      (with_heap h1 s) = (Ok bin, with_heap h2 s) ∧ h1 ⊆ h2)
    as (bin & h2 & -> & S2).
  { destruct (truthy (binary it)); [apply spread_spec|]. by exists VUndef, h1. }
  unfold ret. cbn [json st_heap with_heap].
  destruct (put_prop h2 v (param_accessTokenFieldName this) tok) as [h3|e] eqn:Eput.
  2: { intros [= <- <-]. exists h2. split_and!; [done|by etrans|done]. }
  intros [= <- <-]. exists h3.
  set (f := param_accessTokenFieldName this) in *.
  assert (st_heap s ⊆ h3 ∧
          (is_prim tok = true →
           fresh_reads (st_heap s) h3 v (with_token f tok (json_tree j))))
    as [S3 R3]; [|split_and!; [done|done|]; intros new [= <-]; simpl; eauto].
  assert (∀ c, is_prim v = true → h3 = h2 →
            with_token f tok (json_tree j) = json_tree j →
            st_heap s ⊆ h3 ∧ (c → fresh_reads (st_heap s) h3 v
                                    (with_token f tok (json_tree j)))) as Hsame.
  { intros c _ -> ->. split; [by etrans|]. intros _.
    eapply fresh_reads_mono; [| |exact R1]; done. }
  destruct j as [| | | |xs|ms]; cbn [parse_value] in Ep.
  - by injection Ep as <- <-.
  - injection Ep as <- <-. simpl in Eput.
    destruct (String.eqb f "__proto__"); [|done]. injection Eput as <-.
    by apply Hsame.
  - injection Ep as <- <-. simpl in Eput.
    destruct (String.eqb f "__proto__"); [|done]. injection Eput as <-.
    by apply Hsame.
  - injection Ep as <- <-. simpl in Eput.
    destruct (String.eqb f "__proto__"); [|done]. injection Eput as <-.
    by apply Hsame.
  - (* an array: the copy is left as parsed *)
    destruct (parse_elems parse_value xs (st_heap s)) as [vs hh] eqn:E1.
    destruct (alloc (CArr vs) hh) as [l' hh'] eqn:E2. injection Ep as <- <-.
    apply alloc_spec in E2 as (? & -> & _).
    unfold put_prop in Eput.
    rewrite (lookup_weaken _ _ l' (CArr vs) (lookup_insert_eq _ _ _) S2) in Eput.
    assert (h3 = h2) as ->.
    { destruct (String.eqb f "__proto__"); [by apply set_prototype_Ok in Eput|].
      by injection Eput. }
    split; [by etrans|]. intros _. simpl.
    eapply fresh_reads_mono; [| |exact R1]; done.
  - (* an object: the token is assigned in the new root *)
    apply parse_value_obj in Ep as (l & ps & hh & -> & -> & Shh & Hl & HF).
    pose proof (lookup_weaken _ _ l (CObj ps) (lookup_insert_eq _ _ _) S2) as El.
    apply (put_prop_obj _ _ _ _ _ _ El) in Eput as ->.
    pose proof (lookup_None_weaken _ _ _ Shh Hl) as Hfresh.
    split.
    { apply map_subseteq_spec. intros l' c' Hc'.
      rewrite lookup_insert_ne by congruence.
      eapply lookup_weaken; [exact Hc'|by etrans]. }
    intros Hprim. simpl.
    intros hx Hk. apply reads_obj with (store_prop f tok ps).
    + apply Hk; [done|]. by rewrite lookup_insert_eq.
    + apply (store_prop_Forall2 (reads hx)); [|by apply reads_prim].
      eapply Forall2_impl; [exact HF|]. intros p q [? Hpq]. split; [done|].
      apply Hpq. intros l2 c2 Hl2 Hc2. apply Hk; [done|].
      assert (l2 ≠ l) by (intros ->; congruence).
      rewrite lookup_insert_ne by done.
      eapply lookup_weaken; [|exact S2].
      by rewrite lookup_insert_ne.
Qed.

Lemma buildItem_throw this tok it i s e :
  JSON_stringify (st_heap s) (json it) = Throw e →
  buildItem this tok it i s = (Throw e, s).
Proof. unfold buildItem, bind, get_heap, lift_result. by intros ->. Qed.

Lemma buildItem_undefined this tok it i s :
  JSON_stringify (st_heap s) (json it) = Ok None →
  buildItem this tok it i s = (Throw not_valid_json, s).
Proof.
  unfold buildItem, bind, get_heap, lift_result, parse. intros ->. simpl.
  by rewrite with_heap_id.
Qed.

Lemma buildItem_object this tok it i s ms :
  is_prim tok = true →
  JSON_stringify (st_heap s) (json it) = Ok (Some (JObj ms)) →
  ∃ new s', buildItem this tok it i s = (Ok new, s').
Proof.
  unfold buildItem, bind, get_heap, lift_result, parse, JSON_parse, assign.
  intros Hprim ->.
  destruct (parse_value (JObj ms) (st_heap s)) as [v h1] eqn:Ep.
  destruct (parse_value_obj _ _ _ _ Ep) as (l & ps & hh & -> & -> & _ & _ & _).
  assert (∃ bin h2, (if truthy (binary it) then spread (binary it) else ret VUndef)
                      (with_heap (<[l:=CObj ps]> hh) s) = (Ok bin, with_heap h2 s)
                    ∧ <[l:=CObj ps]> hh ⊆ h2)
    as (bin & h2 & -> & S2).
  { destruct (truthy (binary it)); [apply spread_spec|]. by eexists VUndef, _. }
  unfold ret. cbn [json st_heap with_heap].
  rewrite (put_prop_obj_prim _ l ps _ _ Hprim
             (lookup_weaken _ _ l (CObj ps) (lookup_insert_eq _ _ _) S2)).
  eauto.
Qed.

(** ** The loop *)

Lemma enrichItems_cons this tok i it rest acc s :
  enrichItems this tok i (it :: rest) acc s =
  match buildItem this tok it i s with
  | (Ok new, s1) => enrichItems this tok (S i) rest (acc ++ [new]) s1
  | (Throw e, s1) =>
      match itemFailed this acc i e s1 with
      | (Ok acc', s2) => enrichItems this tok (S i) rest acc' s2
      | (Throw e', s2) => (Throw e', s2)
      end
  end.
Proof.
  cbn [enrichItems]. unfold bind at 1. unfold try_catch, bind at 1.
  destruct (buildItem this tok it i s) as [[new|e] s1]; [done|].
  by destruct (itemFailed this acc i e s1) as [[acc'|e'] s2].
Qed.

Lemma enrichItems_app this tok pre : ∀ i rest acc s,
  enrichItems this tok i (pre ++ rest) acc s =
  match enrichItems this tok i pre acc s with
  | (Ok acc', s1) => enrichItems this tok (i + length pre) rest acc' s1
  | (Throw e, s1) => (Throw e, s1)
  end.
Proof.
  induction pre as [|it pre IH]; intros i rest acc s.
  - simpl. unfold ret. by rewrite Nat.add_0_r.
  - rewrite <-app_comm_cons, !enrichItems_cons.
    replace (i + length (it :: pre)) with (S i + length pre) by (simpl; lia).
    destruct (buildItem this tok it i s) as [[new|e] s1]; [apply IH|].
    destruct (itemFailed this acc i e s1) as [[acc'|e'] s2]; [apply IH|done].
Qed.

(** The body of the [try] raises [Error] instances only. *)
Lemma buildItem_raises this tok it i s t s' :
  buildItem this tok it i s = (Throw t, s') → ∃ e : exn, t = Err e.
Proof.
  unfold buildItem, bind, get_heap, lift_result, parse, JSON_parse, assign.
  destruct (JSON_stringify (st_heap s) (json it)) as [[j|]|t'] eqn:Ej.
  - destruct (parse_value j (st_heap s)) as [v h1] eqn:Ep.
    assert (∃ bin h2, (if truthy (binary it) then spread (binary it) else ret VUndef)
                        (with_heap h1 s) = (Ok bin, with_heap h2 s) ∧ h1 ⊆ h2)
      as (bin & h2 & -> & S2).
    { destruct (truthy (binary it)); [apply spread_spec|]. by exists VUndef, h1. }
    unfold ret. cbn [json st_heap with_heap].
    destruct (put_prop h2 v (param_accessTokenFieldName this) tok) as [h3|t'] eqn:Eput;
      [done|].
    intros [= <- _]. by eapply put_prop_raises.
  - intros [= <- _]. eauto.
  - intros [= <- _]. by eapply JSON_stringify_raises.
Qed.

(** The [catch] of the loop on an [Error] instance. *)
Lemma itemFailed_error this acc i (e : exn) s :
  itemFailed this acc i e s =
  (if continueOnFail this then
     let* j := new_cell
                 (CObj [("error",
                         VStr (or_default (exn_message e)
                                 "Unknown error processing item"))]) in
     ret (acc ++ [{| json := j; binary := VUndef; pairedItem := Some i |}])
   else throw (item_error i e)) s.
Proof.
  unfold itemFailed, item_error, bind, lift_result, new_cell, ret, throw.
  simpl. destruct (continueOnFail this); [done|].
  by destruct (exn_context e).
Qed.

Lemma itemFailed_continue this acc i (e : exn) s :
  continueOnFail this = true →
  ∃ new h', itemFailed this acc i e s = (Ok (acc ++ [new]), with_heap h' s) ∧
    st_heap s ⊆ h' ∧ pairedItem new = Some i ∧ binary new = VUndef ∧
    fresh_reads (st_heap s) h' (json new) (error_record_tree e).
Proof.
  intros Hc. rewrite itemFailed_error, Hc. unfold bind, new_cell, ret.
  destruct (alloc _ (st_heap s)) as [l h'] eqn:Ea.
  destruct (alloc_spec _ _ _ _ Ea) as (Hl & -> & Hsub).
  eexists _, _. split; [done|]. split_and!; [done..|]. simpl.
  apply fresh_reads_new_obj; [done..|].
  repeat constructor. simpl. by apply (fresh_reads_prim _ _ (VStr _)).
Qed.

Lemma itemFailed_abort this acc i (e : exn) s :
  continueOnFail this = false →
  itemFailed this acc i e s = (Throw (item_error i e), s).
Proof. intros Hc. by rewrite itemFailed_error, Hc. Qed.

(** On a primitive the [catch] fails on [null] and [undefined], and
    otherwise finds neither message nor context. *)
Lemma itemFailed_primitive this acc i p s :
  itemFailed this acc i (NonError p) s =
  if nullish_primitive p then (Throw cannot_read_properties, s)
  else if continueOnFail this then
    (let* j := new_cell (CObj [("error", VStr "Unknown error processing item")]) in
     ret (acc ++ [{| json := j; binary := VUndef; pairedItem := Some i |}])) s
  else (Throw (NodeOperationError "Error processing item"
                 [("itemIndex", VNum (Z.of_nat i));
                  ("message", VStr (primitive_toString p))]), s).
Proof.
  unfold itemFailed, bind, lift_result, new_cell, ret, throw. simpl.
  by destruct (nullish_primitive p), (continueOnFail this).
Qed.

Lemma itemFailed_heap this acc i t s r s' :
  itemFailed this acc i t s = (r, s') →
  ∃ h', s' = with_heap h' s ∧ st_heap s ⊆ h'.
Proof.
  assert (∀ c, (let* j := new_cell c in
                ret (acc ++ [{| json := j; binary := VUndef; pairedItem := Some i |}])) s
               = (r, s') → ∃ h', s' = with_heap h' s ∧ st_heap s ⊆ h') as Hnew.
  { intros c. unfold bind, new_cell, ret.
    destruct (alloc c (st_heap s)) as [l h'] eqn:Ea.
    destruct (alloc_spec _ _ _ _ Ea) as (_ & -> & ?). intros [= <- <-]. eauto. }
  assert (∀ r0 : result (list item), (r0, s) = (r, s') →
            ∃ h', s' = with_heap h' s ∧ st_heap s ⊆ h') as Hsame.
  { intros r0 [= <- <-]. exists (st_heap s). by rewrite with_heap_id. }
  destruct t as [e|p].
  - rewrite itemFailed_error. destruct (continueOnFail this); [apply Hnew|apply Hsame].
  - rewrite itemFailed_primitive.
    destruct (nullish_primitive p); [apply Hsame|].
    destruct (continueOnFail this); [apply Hnew|apply Hsame].
Qed.

(** The loop leaves every existing cell as it is; when it completes, it
    has appended one record per item, each tagged with the index of its
    item and holding data made of new cells only. *)
Lemma enrichItems_inv this tok items : ∀ i acc s r s',
  enrichItems this tok i items acc s = (r, s') →
  ∃ h', s' = with_heap h' s ∧ st_heap s ⊆ h' ∧
    ∀ outs, r = Ok outs →
      ∃ news, outs = acc ++ news ∧ length news = length items ∧
        ∀ k new, news !! k = Some new →
          pairedItem new = Some (i + k) ∧
          (is_prim tok = true → ∃ t, fresh_reads (st_heap s) h' (json new) t).
Proof.
  induction items as [|it rest IH]; intros i acc s r s'.
  - simpl. unfold ret. intros [= <- <-]. exists (st_heap s).
    rewrite with_heap_id. split_and!; [done..|].
    intros outs [= <-]. exists []. rewrite app_nil_r. split_and!; [done..|].
    intros k new. by rewrite lookup_nil.
  - rewrite enrichItems_cons.
    destruct (buildItem this tok it i s) as [[new|e] s1] eqn:Eb.
    + destruct (buildItem_inv _ _ _ _ _ _ _ Eb) as (h1 & -> & S1 & Hnew).
      destruct (Hnew new eq_refl) as (Hp & j & _ & Hfr).
      intros Er. destruct (IH _ _ _ _ _ Er) as (h' & -> & S2 & Houts).
      exists h'. split_and!; [done|by etrans|].
      intros outs ->. destruct (Houts outs eq_refl) as (news & -> & Hlen & Hk).
      exists (new :: news). rewrite <-app_assoc. split_and!; [done|simpl; lia|].
      intros [|k] new'; simpl.
      * intros [= <-]. rewrite Nat.add_0_r. split; [done|].
        intros Hprim. eexists. eapply fresh_reads_mono; [| |by apply Hfr]; done.
      * intros Hk'. destruct (Hk _ _ Hk') as [Hp' Hfr'].
        split; [by rewrite Hp'; f_equal; lia|]. intros Hprim.
        destruct (Hfr' Hprim) as [t Ht]. exists t.
        eapply fresh_reads_mono; [| |exact Ht]; done.
    + destruct (buildItem_inv _ _ _ _ _ _ _ Eb) as (h1 & -> & S1 & _).
      destruct (buildItem_raises _ _ _ _ _ _ _ Eb) as [e0 ->].
      rename e0 into e.
      destruct (continueOnFail this) eqn:Hc.
      * destruct (itemFailed_continue this acc i e (with_heap h1 s) Hc)
          as (new & h2 & -> & S2 & Hp & _ & Hfr).
        intros Er. destruct (IH _ _ _ _ _ Er) as (h' & -> & S3 & Houts).
        exists h'. split_and!; [done|by etrans; [exact S1|etrans; [exact S2|]]|].
        intros outs ->. destruct (Houts outs eq_refl) as (news & -> & Hlen & Hk).
        exists (new :: news). rewrite <-app_assoc. split_and!; [done|simpl; lia|].
        intros [|k] new'; simpl.
        -- intros [= <-]. rewrite Nat.add_0_r. split; [done|].
           intros Hprim. eexists. eapply fresh_reads_mono; [| |exact Hfr]; done.
        -- intros Hk'. destruct (Hk _ _ Hk') as [Hp' Hfr'].
           split; [by rewrite Hp'; f_equal; lia|]. intros Hprim.
           destruct (Hfr' Hprim) as [t Ht]. exists t.
           eapply fresh_reads_mono; [| |exact Ht]; [by etrans|done].
      * rewrite itemFailed_abort by done. intros [= <- <-].
        exists h1. split_and!; [done..|]. by intros outs.
Qed.


(** The data of every record the loop appends sits in a cell that did not
    exist before; the one exception is a primitive payload, which passes
    when the field name is [__proto__]. *)
Lemma buildItem_root this tok it i s new s' :
  buildItem this tok it i s = (Ok new, s') →
  (∃ l, json new = VRef l ∧ st_heap s !! l = None) ∨
  (param_accessTokenFieldName this = "__proto__" ∧ is_prim (json new) = true).
Proof.
  unfold buildItem, bind, get_heap, lift_result, parse, JSON_parse, assign.
  destruct (JSON_stringify (st_heap s) (json it)) as [[j|]|e] eqn:Ej; [|done..].
  destruct (parse_value j (st_heap s)) as [v h1] eqn:Ep.
  assert (∃ bin h2, (if truthy (binary it) then spread (binary it) else ret VUndef)
                      (with_heap h1 s) = (Ok bin, with_heap h2 s) ∧ h1 ⊆ h2)
    as (bin & h2 & -> & S2).
  { destruct (truthy (binary it)); [apply spread_spec|]. by exists VUndef, h1. }
  unfold ret. cbn [json st_heap with_heap].
  destruct (put_prop h2 v (param_accessTokenFieldName this) tok) as [h3|e] eqn:Eput;
    [|done].
  intros [= <- <-]. cbn [json].
  unfold put_prop in Eput. destruct v as [| | | | | |l]; try done.
  1-4: destruct (String.eqb_spec (param_accessTokenFieldName this) "__proto__");
    [by right|done].
  left. exists l. split; [done|]. by destruct (parse_value_root _ _ _ _ Ep).
Qed.

Lemma itemFailed_root this acc i t s outs s' :
  itemFailed this acc i t s = (Ok outs, s') →
  ∃ new l, outs = acc ++ [new] ∧ json new = VRef l ∧ st_heap s !! l = None.
Proof.
  assert (∀ c, (let* j := new_cell c in
                ret (acc ++ [{| json := j; binary := VUndef; pairedItem := Some i |}])) s
               = (Ok outs, s') →
            ∃ new l, outs = acc ++ [new] ∧ json new = VRef l ∧ st_heap s !! l = None)
    as Hnew.
  { intros c. unfold bind, new_cell, ret.
    destruct (alloc c (st_heap s)) as [l h'] eqn:Ea.
    destruct (alloc_spec _ _ _ _ Ea) as (Hl & _ & _). intros [= <- <-]. eauto. }
  destruct t as [e|p].
  - rewrite itemFailed_error. destruct (continueOnFail this); [apply Hnew|done].
  - rewrite itemFailed_primitive.
    destruct (nullish_primitive p); [done|].
    destruct (continueOnFail this); [apply Hnew|done].
Qed.

Lemma enrichItems_roots this tok items : ∀ i acc s outs s',
  enrichItems this tok i items acc s = (Ok outs, s') →
  ∃ news, outs = acc ++ news ∧
    ∀ new, new ∈ news →
      (∃ l, json new = VRef l ∧ st_heap s !! l = None) ∨
      (param_accessTokenFieldName this = "__proto__" ∧ is_prim (json new) = true).
Proof.
  induction items as [|it rest IH]; intros i acc s outs s'.
  - simpl. unfold ret. intros [= <- <-]. exists []. rewrite app_nil_r.
    split; [done|]. by intros new ?%elem_of_nil.
  - rewrite enrichItems_cons.
    destruct (buildItem this tok it i s) as [[new|e] s1] eqn:Eb.
    + destruct (buildItem_inv _ _ _ _ _ _ _ Eb) as (h1 & -> & S1 & _).
      pose proof (buildItem_root _ _ _ _ _ _ _ Eb) as Hroot.
      intros (news & -> & Hnews)%IH. exists (new :: news).
      rewrite <-app_assoc. split; [done|].
      intros new' [->|Hin]%elem_of_cons; [done|].
      destruct (Hnews _ Hin) as [(l' & ? & ?)|?]; [left|by right].
      exists l'. split; [done|]. by eapply lookup_None_weaken.
    + destruct (buildItem_inv _ _ _ _ _ _ _ Eb) as (h1 & -> & S1 & _).
      destruct (itemFailed this acc i e (with_heap h1 s)) as [[acc'|e'] s2] eqn:Ef;
        [|done].
      destruct (itemFailed_heap _ _ _ _ _ _ _ Ef) as (h2 & -> & S2).
      destruct (itemFailed_root _ _ _ _ _ _ _ Ef) as (new & l & -> & Hl & Hfresh).
      intros (news & -> & Hnews)%IH. exists (new :: news).
      rewrite <-app_assoc. split; [done|].
      intros new' [->|Hin]%elem_of_cons.
      * left. exists l. split; [done|]. by eapply lookup_None_weaken.
      * destruct (Hnews _ Hin) as [(l' & ? & ?)|?]; [left|by right].
        exists l'. split; [done|].
        eapply lookup_None_weaken; [|done]. by etrans.
Qed.
End item.

(** ** Steps 1 to 3 *)

Section phases.
Context {W : Type}.
Implicit Types (s : state W) (this : IExecuteFunctions W).

(** The host calls of the [try] of step 1: the fetch, then at most the
    probe request. *)
Lemma refreshAttempt_calls this s r s' :
  refreshAttempt this s = (r, s') →
  st_heap s' = st_heap s ∧
  ∃ calls, st_calls s' = calls ++ st_calls s ∧
    (calls = [CallGetCredentials "oAuth2Api"] ∨
     ∃ o, calls = [CallRequestOAuth2 "oAuth2Api" o; CallGetCredentials "oAuth2Api"]).
Proof.
  unfold refreshAttempt, bind, call_getCredentials, call_requestOAuth2, get_dummyUrl,
    get_heap, lift_result, set_dummyUrl, set_refreshedCredentials, ret.
  destruct s as [h w cs d rc]. simpl.
  destruct (getCredentials this "oAuth2Api" w) as [[c|e] w1].
  2: { intros [= <- <-]. split; [done|]. eexists [_]. eauto. }
  destruct (truthy d) eqn:Hd; simpl; repeat (rewrite Hd; simpl).
  - destruct (requestOAuth2 this _ _ w1) as [r1 w2].
    intros [= <- <-]. split; [done|]. eexists [_; _]. eauto.
  - destruct (get_prop h c "tokenUrl") as [u|e]; simpl.
    2: { intros [= <- <-]. split; [done|]. eexists [_]. eauto. }
    destruct (truthy (js_or _ (VStr ""))); simpl.
    + destruct (requestOAuth2 this _ _ w1) as [r1 w2].
      intros [= <- <-]. split; [done|]. eexists [_; _]. eauto.
    + intros [= <- <-]. split; [done|]. eexists [_]. eauto.
Qed.

(** Reading a caught value. *)
Lemma readable_reads t :
  readable t = true →
  ∃ m x, thrown_message t = Ok m ∧ thrown_toString t = Ok x.
Proof.
  destruct t as [e|p]; simpl; [eauto|]. destruct (nullish_primitive p); [done|eauto].
Qed.

Lemma unreadable_reads t :
  readable t = false → thrown_message t = Throw cannot_read_properties.
Proof. destruct t as [e|p]; simpl; [done|]. by destruct (nullish_primitive p). Qed.

Lemma thrown_message_cases t :
  (∃ m, thrown_message t = Ok m ∧ readable t = true) ∨
  (thrown_message t = Throw cannot_read_properties ∧ readable t = false).
Proof.
  destruct t as [e|p]; simpl; [eauto|]. destruct (nullish_primitive p); eauto.
Qed.

(** What the [try] of step 1 raises comes from a host call, or is the
    [TypeError] of reading [tokenUrl] on no record. *)
Lemma refreshAttempt_readable this s t s' :
  readable_host this →
  refreshAttempt this s = (Throw t, s') → readable t = true.
Proof.
  intros [Hg Hq].
  unfold refreshAttempt, bind, call_getCredentials, call_requestOAuth2, get_dummyUrl,
    get_heap, lift_result, set_dummyUrl, set_refreshedCredentials, ret.
  destruct s as [h w cs d rc]. simpl.
  destruct (getCredentials this "oAuth2Api" w) as [[c|t0] w1] eqn:Eg.
  2: { intros [= <- _]. by eapply Hg. }
  destruct (truthy d) eqn:Hd; simpl; repeat (rewrite Hd; simpl).
  - destruct (requestOAuth2 this _ _ w1) as [[[]|t1] w2] eqn:Eq; [done|].
    intros [= <- _]. by eapply Hq.
  - unfold get_prop. destruct (nullish c); simpl; [by intros [= <- _]|].
    destruct (truthy (js_or _ (VStr ""))); simpl; [|done].
    destruct (requestOAuth2 this _ _ w1) as [[[]|t1] w2] eqn:Eq; [done|].
    intros [= <- _]. by eapply Hq.
Qed.

(** Step 1 in every case: it leaves the object store as it is, makes at
    most two fetches and one request, and ends normally unless reading a
    caught value raised; with a host that fails with readable values only it
    ends normally. *)
Lemma refreshTrigger_spec this s :
  ∃ r s', refreshTrigger this s = (r, s') ∧
    st_heap s' = st_heap s ∧
    (∃ calls, st_calls s' = calls ++ st_calls s ∧
       length (filter (λ c, is_fetch c = true) calls) ≤ 2 ∧
       length (filter (λ c, is_request c = true) calls) ≤ 1) ∧
    (r = Ok () ∨ r = Throw cannot_read_properties) ∧
    (readable_host this → r = Ok ()).
Proof.
  unfold refreshTrigger, try_catch at 1.
  destruct (refreshAttempt this s) as [[[]|t] s1] eqn:Ea;
    destruct (refreshAttempt_calls _ _ _ _ Ea) as (Hh & calls & Hc & Hshape).
  - eexists _, _. split; [done|]. split; [done|]. split; [|by auto].
    exists calls. split; [done|]. destruct Hshape as [->|[o ->]]; simpl; lia.
  - assert (∃ calls, st_calls s1 = calls ++ st_calls s ∧
              length (filter (λ c, is_fetch c = true) calls) ≤ 2 ∧
              length (filter (λ c, is_request c = true) calls) ≤ 1) as Hcalls.
    { exists calls. split; [done|]. destruct Hshape as [->|[o ->]]; simpl; lia. }
    assert (∃ calls, CallGetCredentials "oAuth2Api" :: st_calls s1 = calls ++ st_calls s ∧
              length (filter (λ c, is_fetch c = true) calls) ≤ 2 ∧
              length (filter (λ c, is_request c = true) calls) ≤ 1) as Hcalls'.
    { exists (CallGetCredentials "oAuth2Api" :: calls). split; [by rewrite Hc|].
      destruct Hshape as [->|[o ->]]; simpl; lia. }
    unfold bind at 1, lift_result at 1.
    destruct (thrown_message_cases t) as [(m & -> & Hrt)|[-> Hrt]].
    2: { eexists _, _. split; [done|]. split_and!; [done|done|by right|].
         intros Hhost. by rewrite (refreshAttempt_readable _ _ _ _ Hhost Ea) in Hrt. }
    destruct (readable_reads _ Hrt) as (m' & x & _ & Hx).
    unfold bind at 1, lift_result at 1. rewrite Hx.
    unfold bind, get_refreshedCredentials.
    destruct (truthy (refreshedCredentials s1)); cbn [negb].
    + eexists _, _. split; [done|]. split_and!; [done|done|by left|done].
    + unfold try_catch, bind, call_getCredentials, set_refreshedCredentials, ret,
        lift_result.
      destruct (getCredentials this "oAuth2Api" (st_world s1)) as [[c|t'] w2] eqn:Eg.
      * eexists _, _. split; [done|]. split_and!; [done|done|by left|done].
      * destruct (thrown_message_cases t') as [(m2 & -> & Hrt')|[-> Hrt']];
          (eexists _, _; split; [done|]; split_and!; [done|done|auto|]); [done|].
        intros [Hg _]. by rewrite (Hg _ _ _ _ Eg) in Hrt'.
Qed.


Lemma credentialFetch_heap this s r s' :
  credentialFetch this s = (r, s') → st_heap s' = st_heap s.
Proof.
  unfold credentialFetch, try_catch, bind, get_refreshedCredentials, get_dummyUrl,
    call_getCredentials, set_refreshedCredentials, ret, throw, lift_result.
  destruct (truthy _).
  - destruct (getCredentials this "oAuth2Api" (st_world s)) as [[c|t] w1];
      [by intros [= <- <-]|].
    destruct (thrown_message t); by intros [= <- <-].
  - by intros [= <- <-].
Qed.

(** The guard of step 2 is [!refreshedCredentials]. *)
Lemma fetch_guard (d rc : value) :
  truthy (js_or (js_not rc) (js_and d (js_not rc))) = truthy (js_not rc).
Proof.
  unfold js_or, js_and, js_not. cbn [truthy].
  destruct (truthy rc) eqn:Hrc; cbn [negb truthy]; [|done].
  destruct (truthy d) eqn:Hd; cbn [negb truthy]; done.
Qed.

Lemma credentialFetch_simplified_eq this s :
  credentialFetch this s = credentialFetch_simplified this s.
Proof.
  unfold credentialFetch, credentialFetch_simplified, try_catch, bind,
    get_refreshedCredentials, get_dummyUrl.
  by rewrite fetch_guard.
Qed.

Lemma tokenExtract_spec s :
  tokenExtract s =
  if truthy (refreshedCredentials s) then
    if truthy (probeToken (st_heap s) (refreshedCredentials s))
    then (Ok (probeToken (st_heap s) (refreshedCredentials s)), s)
    else (Throw (NodeOperationError no_token_message []), s)
  else (Throw (NodeOperationError "Failed to retrieve OAuth2 credentials." []), s).
Proof.
  unfold tokenExtract, bind, get_refreshedCredentials, get_heap, throw, ret.
  destruct (truthy (refreshedCredentials s)); [|done]. cbn [negb].
  by destruct (truthy (probeToken _ _)).
Qed.

Lemma tokenExtract_state (s : state W) r s' : tokenExtract s = (r, s') → s' = s.
Proof.
  rewrite tokenExtract_spec.
  repeat case_match; by intros [= <- <-].
Qed.

Lemma obtainCredentials_heap this s r s' :
  obtainCredentials credentialFetch this s = (r, s') → st_heap s' = st_heap s.
Proof.
  unfold obtainCredentials, bind at 1 2 3.
  unfold set_dummyUrl at 1. unfold set_refreshedCredentials at 1.
  cbn [st_heap st_world st_calls dummyUrl refreshedCredentials].
  match goal with |- context [refreshTrigger this ?s0] =>
    destruct (refreshTrigger_spec this s0) as (r0 & s1 & -> & Hh & _) end.
  destruct r0 as [[]|t]; [|by intros [= <- <-]].
  intros Hf%credentialFetch_heap. by rewrite Hf, Hh.
Qed.

Lemma resolveToken_heap this s r s' :
  resolveToken credentialFetch this s = (r, s') → st_heap s' = st_heap s.
Proof.
  unfold resolveToken, bind at 1.
  destruct (obtainCredentials credentialFetch this s) as [[[]|e] s1] eqn:Eo;
    apply obtainCredentials_heap in Eo.
  - intros Ht. apply tokenExtract_state in Ht. by subst.
  - by intros [= <- <-].
Qed.

Lemma execute_unfold this s :
  execute this s =
  match resolveToken credentialFetch this s with
  | (Ok accessToken, s1) => enrichItems this accessToken 0 (getInputData this) [] s1
  | (Throw e, s1) => (Throw e, s1)
  end.
Proof. done. Qed.
End phases.

(** ** Token extraction (step 3) *)

Lemma prop_falsy_base h v k : truthy v = false → prop h v k = VUndef.
Proof. by destruct v. Qed.

Lemma js_and_prop_truthy h v k :
  truthy (js_and v (prop h v k)) = truthy (prop h v k).
Proof.
  unfold js_and. destruct (truthy v) eqn:E; [done|].
  by rewrite (prop_falsy_base _ _ _ E), E.
Qed.

(** What the current source extracts: the first truthy of its four probes
    (a falsy last probe is as good as none). *)
Lemma probeToken_first h rc :
  truthy (probeToken h rc) = truthy (first_truthy (probed_shapes h rc)) ∧
  (truthy (probeToken h rc) = true →
   probeToken h rc = first_truthy (probed_shapes h rc)).
Proof.
  unfold probeToken, probed_shapes. cbn [first_truthy].
  destruct (truthy (prop h rc "accessToken")) eqn:E1; [done|].
  destruct (truthy (prop h rc "access_token")) eqn:E2; [done|].
  destruct (truthy (prop h rc "token")) eqn:E3; [done|].
  destruct (truthy (prop h rc "oauthTokenData")) eqn:E4.
  - by destruct (truthy (js_or _ _)) eqn:E5.
  - rewrite !(prop_falsy_base _ _ _ E4). done.
Qed.

(** The earlier build extracts the first truthy of all six shapes. *)
Lemma probeToken_dist_first h c :
  truthy (probeToken_dist h c) = truthy (first_truthy (recognized_shapes h c)) ∧
  (truthy (probeToken_dist h c) = true →
   probeToken_dist h c = first_truthy (recognized_shapes h c)).
Proof.
  unfold probeToken_dist, recognized_shapes. cbn [first_truthy].
  rewrite !js_and_prop_truthy.
  destruct (truthy (prop h c "accessToken")) eqn:E1; [done|].
  destruct (truthy (prop h c "access_token")) eqn:E2; [done|].
  destruct (truthy (prop h c "token")) eqn:E3; [done|].
  destruct (truthy (prop h (prop h c "oauth") "access_token")) eqn:E4; [done|].
  destruct (truthy (prop h (prop h c "data") "access_token")) eqn:E5; [done|].
  destruct (truthy (prop h c "oauthTokenData")) eqn:E6.
  - by destruct (truthy (js_or _ _)) eqn:E7.
  - rewrite !(prop_falsy_base _ _ _ E6). done.
Qed.

Lemma first_truthy_falsy vs :
  Forall (λ v, truthy v = false) vs → first_truthy vs = VUndef.
Proof. induction 1 as [|v r Hv _ IH]; simpl; [done|]. by rewrite Hv. Qed.

(** ** C1 *)

(** C1 (six shapes claimed; the source probes four of them).  On the
    credential records [{oauth: {access_token: "tok"}}] and
    [{data: {access_token: "tok"}}] the fourth, respectively fifth, listed
    shape holds the token ["tok"], and the earlier build of the node
    extracts it, but [execute] finds no token there and fails with the
    token-not-found error: the nested [oauth.access_token] and
    [data.access_token] probes are missing from the current source. *)
Theorem tokenExtract_misses_nested_oauth :
  let this := steady_host (VRef 1) [] "accessToken" "" false in
  (first_truthy (recognized_shapes nested_oauth_store (VRef 1)) = VStr "tok" ∧
   probeToken_dist nested_oauth_store (VRef 1) = VStr "tok" ∧
   probeToken nested_oauth_store (VRef 1) = VUndef ∧
   fst (execute this (start nested_oauth_store))
     = Throw (NodeOperationError no_token_message [])) ∧
  (first_truthy (recognized_shapes nested_data_store (VRef 1)) = VStr "tok" ∧
   probeToken_dist nested_data_store (VRef 1) = VStr "tok" ∧
   probeToken nested_data_store (VRef 1) = VUndef ∧
   fst (execute this (start nested_data_store))
     = Throw (NodeOperationError no_token_message [])).
Proof. vm_compute. done. Qed.

(** ** C6 *)

(** C6, amended: with a truthy top-level [accessToken] and a truthy
    top-level [access_token] the token is the [accessToken] value; with a
    truthy top-level [access_token] and no truthy top-level [accessToken]
    the token is the [access_token] value, whatever [oauthTokenData] holds. *)
Theorem top_level_priority {W} (s : state W) :
  let h := st_heap s in
  let rc := refreshedCredentials s in
  (truthy (prop h rc "accessToken") = true →
   truthy (prop h rc "access_token") = true →
   tokenExtract s = (Ok (prop h rc "accessToken"), s)) ∧
  (truthy (prop h rc "accessToken") = false →
   truthy (prop h rc "access_token") = true →
   tokenExtract s = (Ok (prop h rc "access_token"), s)).
Proof.
  intros h rc. subst h rc. rewrite tokenExtract_spec. unfold probeToken.
  split; intros Ha Hb; rewrite Ha.
  - destruct (truthy (refreshedCredentials s)) eqn:E; [by rewrite Ha|].
    by rewrite (prop_falsy_base _ _ _ E) in Ha.
  - destruct (truthy (refreshedCredentials s)) eqn:E; [by rewrite !Hb|].
    by rewrite (prop_falsy_base _ _ _ E) in Hb.
Qed.

Lemma top_level_priority_witness :
  tokenExtract (holding both_top_level_store (VRef 1))
    = (Ok (VStr "a"), holding both_top_level_store (VRef 1)) ∧
  tokenExtract (holding two_token_store (VRef 1))
    = (Ok (VStr "xyz"), holding two_token_store (VRef 1)).
Proof.
  split.
  - apply (proj1 (top_level_priority (holding both_top_level_store (VRef 1))));
      reflexivity.
  - apply (proj2 (top_level_priority (holding two_token_store (VRef 1))));
      reflexivity.
Defined.

(** C6 as stated fails: a record with a non-empty top-level [access_token]
    and a nested [oauthTokenData] token, which also has a non-empty
    top-level [accessToken], yields the [accessToken] value. *)
Lemma access_token_not_always_returned :
  ¬ (∀ (s : state unit),
       truthy (prop (st_heap s) (refreshedCredentials s) "access_token") = true →
       truthy (prop (st_heap s)
                 (prop (st_heap s) (refreshedCredentials s) "oauthTokenData")
                 "accessToken") = true →
       tokenExtract s
         = (Ok (prop (st_heap s) (refreshedCredentials s) "access_token"), s)).
Proof.
  intros H. specialize (H (holding three_token_store (VRef 1)) eq_refl eq_refl).
  vm_compute in H. discriminate H.
Qed.

(** ** C5 *)

(** C5: when the credential record reached by step 3 holds a token under
    none of the recognized shapes, [execute] fails with the token-not-found
    [NodeOperationError]; no item has been processed and no cell created. *)
Theorem no_token_is_fatal {W} (this : IExecuteFunctions W) (s s1 : state W) :
  obtainCredentials credentialFetch this s = (Ok (), s1) →
  truthy (refreshedCredentials s1) = true →
  Forall (λ v, truthy v = false)
    (recognized_shapes (st_heap s1) (refreshedCredentials s1)) →
  execute this s = (Throw (NodeOperationError no_token_message []), s1) ∧
  st_heap s1 = st_heap s.
Proof.
  intros Ho Hrc Hnone. split; [|by eapply obtainCredentials_heap].
  rewrite execute_unfold. unfold resolveToken, bind. rewrite Ho.
  rewrite tokenExtract_spec, Hrc.
  destruct (probeToken_first (st_heap s1) (refreshedCredentials s1)) as [-> _].
  rewrite first_truthy_falsy; [done|].
  unfold recognized_shapes, probed_shapes in *.
  repeat match goal with H : Forall _ (_ :: _) |- _ =>
    apply Forall_cons in H as [? H] end.
  repeat constructor; done.
Qed.

Lemma no_token_is_fatal_witness :
  let this := steady_host (VRef 1) [Item VNull VUndef None] "accessToken" "" false in
  execute this (start tokenless_store)
    = (Throw (NodeOperationError no_token_message []),
       State tokenless_store () [CallGetCredentials "oAuth2Api"] (VStr "") (VRef 1)) ∧
  st_heap (State tokenless_store () [CallGetCredentials "oAuth2Api"] (VStr "") (VRef 1))
    = st_heap (start tokenless_store).
Proof.
  apply (no_token_is_fatal
           (steady_host (VRef 1) [Item VNull VUndef None] "accessToken" "" false)
           (start tokenless_store)).
  - reflexivity.
  - reflexivity.
  - repeat constructor.
Defined.

(** ** C9 *)

Lemma bind_cong {W A B} (m m' : M W A) (k k' : A → M W B) s :
  m s = m' s → (∀ a s', k a s' = k' a s') → bind m k s = bind m' k' s.
Proof.
  intros Hm H. unfold bind. rewrite Hm.
  destruct (m' s) as [[a|e] s']; [apply H|done].
Qed.

(** C9: the guard [!refreshedCredentials || (dummyUrl && !refreshedCredentials)]
    is [!refreshedCredentials]; [execute] equals the variant with the
    simplified guard; step 2 fetches exactly when step 1 left no record and
    otherwise keeps the record as it is. *)
Theorem fetch_guard_redundant {W} (this : IExecuteFunctions W) (s : state W) :
  (∀ d rc : value,
     truthy (js_or (js_not rc) (js_and d (js_not rc))) = truthy (js_not rc)) ∧
  execute this s = execute_simplified this s ∧
  (if truthy (refreshedCredentials s)
   then credentialFetch this s = (Ok (), s)
   else st_calls (credentialFetch this s).2
          = CallGetCredentials "oAuth2Api" :: st_calls s).
Proof.
  split_and!.
  - apply fetch_guard.
  - unfold execute, execute_simplified, execute_with, resolveToken, obtainCredentials.
    apply bind_cong; [|done]. apply bind_cong; [|done].
    do 3 (apply bind_cong; [done|]; intros).
    apply credentialFetch_simplified_eq.
  - rewrite credentialFetch_simplified_eq.
    unfold credentialFetch_simplified, try_catch, bind, get_refreshedCredentials,
      call_getCredentials, set_refreshedCredentials, ret, throw, js_not. cbn [truthy].
    destruct (truthy (refreshedCredentials s)); cbn [negb]; [done|].
    destruct (getCredentials this "oAuth2Api" (st_world s)) as [[c|t] w1]; [done|].
    unfold lift_result. by destruct (thrown_message t).
Qed.

(** ** C8 *)




(** ** Batch enrichment (step 4) *)

Section batch.
Context {W : Type}.
Implicit Types (s : state W) (this : IExecuteFunctions W).

Lemma jsonify_object_tree ps j :
jsonify (TObj ps) = Ok (Some j) → ∃ ms, j = JObj ms.
Proof. simpl. destruct (ser_props jsonify ps); [|done]. intros [= <-]. eauto. Qed.

(** One item whose data is a finite object: the copy is its JSON round
  trip, with the token assigned under the field name. *)
Lemma buildItem_reads this tok it i s ps :
is_prim tok = true →
reads (st_heap s) (json it) (TObj ps) →
match jsonify (TObj ps) with
| Throw e => buildItem this tok it i s = (Throw e, s)
| Ok None => False
| Ok (Some j) =>
    ∃ new s', buildItem this tok it i s = (Ok new, s') ∧
      st_heap s ⊆ st_heap s' ∧ pairedItem new = Some i ∧
      fresh_reads (st_heap s) (st_heap s') (json new)
        (with_token (param_accessTokenFieldName this) tok (json_tree j))
end.
Proof.
intros Hprim Hr. pose proof (JSON_stringify_reads _ _ _ Hr) as Hs.
destruct (jsonify (TObj ps)) as [[j|]|e] eqn:Ej.
- destruct (jsonify_object_tree _ _ Ej) as [ms ->].
  destruct (buildItem_object this tok it i s ms Hprim Hs) as (new & s' & Hb).
  exists new, s'. split; [done|].
  destruct (buildItem_inv _ _ _ _ _ _ _ Hb) as (h' & -> & Hsub & Hnew).
  destruct (Hnew new eq_refl) as (Hp & j' & Hj' & Hfr).
  rewrite Hs in Hj'. injection Hj' as <-. auto.
- simpl in Ej. by destruct (ser_props jsonify ps).
- by apply buildItem_throw.
Qed.

Lemma enrichItems_json this tok items : ∀ i acc s,
is_prim tok = true →
Forall (λ it, ∃ ps, reads (st_heap s) (json it) (TObj ps) ∧
                    json_ok (TObj ps) = true) items →
∃ news s', enrichItems this tok i items acc s = (Ok (acc ++ news), s') ∧
  st_heap s ⊆ st_heap s' ∧
  Forall2 (λ it new, ∀ ps, reads (st_heap s) (json it) (TObj ps) →
             reads (st_heap s') (json new)
               (TObj (store_prop (param_accessTokenFieldName this) (prim_tree tok) ps)))
    items news.
Proof.
induction items as [|it rest IH]; intros i acc s Hprim Hall.
- exists [], s. rewrite app_nil_r. by split_and!; [..|constructor].
- apply Forall_cons in Hall as [(ps & Hr & Hok) Hrest].
  rewrite enrichItems_cons.
  pose proof (buildItem_reads this tok it i s ps Hprim Hr) as Hb.
  destruct (json_ok_roundtrip _ Hok) as (j & Hj & Hjt). rewrite Hj in Hb.
  destruct Hb as (new & s1 & -> & S1 & _ & Hfr). rewrite Hjt in Hfr.
  cbn [with_token] in Hfr.
  destruct (IH (S i) (acc ++ [new]) s1 Hprim) as (news & s' & -> & S2 & HF).
  { eapply Forall_impl; [exact Hrest|]. intros it' (ps' & ? & ?).
    exists ps'. split; [by eapply reads_weaken|done]. }
  exists (new :: news), s'. rewrite <-app_assoc. split_and!; [done|by etrans|].
  constructor.
  + intros ps' Hr'. assert (TObj ps' = TObj ps) as [= ->] by eauto using reads_det.
    eapply reads_weaken; [exact S2|]. by apply fresh_reads_reads in Hfr.
  + eapply Forall2_impl; [exact HF|]. intros it' new' H ps' Hr'.
    apply H. by eapply reads_weaken.
Qed.
End batch.

(** ** C2 *)

(** C2, amended: with field name [accessToken] and extracted token [T], for
    a batch of N records whose data are JSON-representable objects,
    [execute] returns N records, and the data of the record at each
    position is the data of the input at that position with [accessToken]
    bound to [T]. *)
Theorem execute_enriches_every_record {W} (this : IExecuteFunctions W)
    (s s1 : state W) (T : string) :
  param_accessTokenFieldName this = "accessToken" →
  resolveToken credentialFetch this s = (Ok (VStr T), s1) →
  Forall (λ it, ∃ ps, reads (st_heap s) (json it) (TObj ps) ∧
                      json_ok (TObj ps) = true) (getInputData this) →
  ∃ outs s', execute this s = (Ok outs, s') ∧
    length outs = length (getInputData this) ∧
    ∀ k it ps, getInputData this !! k = Some it →
      reads (st_heap s) (json it) (TObj ps) →
      ∃ new, outs !! k = Some new ∧
        reads (st_heap s') (json new) (TObj (set_prop "accessToken" (TStr T) ps)).
Proof.
  intros Hf Hres Hall. rewrite execute_unfold, Hres.
  pose proof (resolveToken_heap _ _ _ _ Hres) as Hh.
  destruct (enrichItems_json this (VStr T) (getInputData this) 0 [] s1 eq_refl)
    as (news & s' & -> & Hsub & HF).
  { by rewrite Hh. }
  exists news, s'. split_and!; [done|by apply Forall2_length in HF|].
  intros k it ps Hk Hr.
  destruct (Forall2_lookup_l _ _ _ _ _ HF Hk) as (new & Hnew & Hrd).
  exists new. split; [done|]. rewrite Hf in Hrd. apply Hrd. by rewrite Hh.
Qed.

Lemma execute_enriches_every_record_witness :
  let this := steady_host (VRef 1) [Item (VRef 5) VUndef None] "accessToken" "" false in
  ∃ outs s', execute this (start foo_store) = (Ok outs, s') ∧
    length outs = 1 ∧
    ∀ k it ps, [Item (VRef 5) VUndef None] !! k = Some it →
      reads foo_store (json it) (TObj ps) →
      ∃ new, outs !! k = Some new ∧
        reads (st_heap s') (json new)
          (TObj (set_prop "accessToken" (TStr "abc123") ps)).
Proof.
  intros this.
  apply (execute_enriches_every_record this (start foo_store)
           (State foo_store () [CallGetCredentials "oAuth2Api"] (VStr "") (VRef 1))
           "abc123").
  - reflexivity.
  - reflexivity.
  - repeat constructor. exists [("foo", TNum 1)]. split; [by exists 1|reflexivity].
Defined.

(** C2 as stated fails on data that is not JSON-representable: the input
    data [{foo: NaN}] becomes [{foo: null, accessToken: "abc123"}], which
    is not the input data with [accessToken] added. *)
Lemma nan_payload_not_preserved :
  let this := steady_host (VRef 1) [Item (VRef 5) VUndef None] "accessToken" "" false in
  ∃ outs s' new,
    execute this (start nan_store) = (Ok outs, s') ∧
    outs !! 0 = Some new ∧
    reads nan_store (VRef 5) (TObj [("foo", TNaN)]) ∧
    reads (st_heap s') (json new)
      (TObj [("foo", TNull); ("accessToken", TStr "abc123")]) ∧
    ¬ reads (st_heap s') (json new)
        (TObj (set_prop "accessToken" (TStr "abc123") [("foo", TNaN)])).
Proof.
  intros this.
  destruct (execute this (start nan_store)) as [r s'] eqn:E.
  vm_compute in E. injection E as <- <-.
  eexists _, _, _. split; [reflexivity|]. split; [reflexivity|].
  assert (reads (<[6:=CObj [("foo", VNull); ("accessToken", VStr "abc123")]]> nan_store)
            (VRef 6) (TObj [("foo", TNull); ("accessToken", TStr "abc123")])) as Hout
    by (by exists 1).
  split_and!.
  - by exists 1.
  - exact Hout.
  - intros Hbad. pose proof (reads_det _ _ _ _ Hout Hbad) as Heq. discriminate Heq.
Qed.

(** ** C3 *)

(** C3: [execute] changes no cell of the store it starts from, so each
    input record's data reads as before, also after any later change to
    the cells created by the call; and, the token being a primitive, the
    data of each output record sits in a cell created by the call and is
    made of such cells only: it reads the same whatever is later written
    to the cells of the inputs.  (With the field name [__proto__] a
    payload that is a boolean, a number or a string is passed on as it is;
    such data is no cell at all.) *)
Theorem inputs_never_mutated {W} (this : IExecuteFunctions W) (s s' : state W)
    (r : result (list item)) :
  execute this s = (r, s') →
  st_heap s ⊆ st_heap s' ∧
  (∀ it t, it ∈ getInputData this → reads (st_heap s) (json it) t →
     ∀ h2, st_heap s ⊆ h2 → reads h2 (json it) t) ∧
  (∀ tok s1 outs,
     resolveToken credentialFetch this s = (Ok tok, s1) → is_prim tok = true →
     r = Ok outs →
     ∀ new, new ∈ outs →
       ((∃ l, json new = VRef l ∧ st_heap s !! l = None) ∨
        (param_accessTokenFieldName this = "__proto__" ∧
         is_prim (json new) = true)) ∧
       ∃ t, ∀ h2, keeps_new (st_heap s) (st_heap s') h2 → reads h2 (json new) t).
Proof.
  rewrite execute_unfold. intros He.
  destruct (resolveToken credentialFetch this s) as [[tok|e] s1] eqn:Hres;
    pose proof (resolveToken_heap _ _ _ _ Hres) as Hh.
  - destruct (enrichItems_inv _ _ _ _ _ _ _ _ He) as (h' & -> & Hsub & Houts).
    rewrite Hh in *. cbn [st_heap with_heap]. split_and!; [done| |].
    + intros it t _ Hr h2 Hsub2. by eapply reads_weaken.
    + intros tok' s1' outs [= <- <-] Hprim -> new Hin. split.
      * destruct (enrichItems_roots _ _ _ _ _ _ _ _ He) as (news & -> & Hroots).
        rewrite <-Hh. by apply Hroots.
      * destruct (Houts outs eq_refl) as (news & -> & _ & Hk).
        apply list_elem_of_lookup in Hin as [k Hk'].
        destruct (Hk k new Hk') as [_ Hfr]. exact (Hfr Hprim).
  - injection He as <- <-. rewrite Hh. split_and!; [done| |done].
    intros it t _ Hr h2 Hsub2. by eapply reads_weaken.
Qed.

Lemma inputs_never_mutated_witness :
  let this := steady_host (VRef 1) [Item (VRef 5) VUndef None] "accessToken" "" false in
  let h' := <[6 := CObj [("foo", VNum 1); ("accessToken", VStr "abc123")]]> foo_store in
  foo_store ⊆ h' ∧
  (∀ t, reads foo_store (VRef 5) t → ∀ h2, foo_store ⊆ h2 → reads h2 (VRef 5) t) ∧
  foo_store !! 6 = None ∧
  ∃ t, ∀ h2, keeps_new foo_store h' h2 → reads h2 (VRef 6) t.
Proof.
  intros this h'.
  destruct (inputs_never_mutated this (start foo_store)
              (State h' () [CallGetCredentials "oAuth2Api"] (VStr "") (VRef 1))
              (Ok [Item (VRef 6) VUndef (Some 0)]))
    as (H1 & H2 & H3); [reflexivity|].
  split; [exact H1|]. split.
  { intros t. apply (H2 (Item (VRef 5) VUndef None)). apply list_elem_of_here. }
  destruct (H3 (VStr "abc123")
              (State foo_store () [CallGetCredentials "oAuth2Api"] (VStr "") (VRef 1))
              [Item (VRef 6) VUndef (Some 0)] eq_refl eq_refl eq_refl
              (Item (VRef 6) VUndef (Some 0)))
    as [[(l & Hl & Hfresh)|[Hf _]] Ht]; [apply list_elem_of_here| |discriminate Hf].
  injection Hl as <-. split; [exact Hfresh|exact Ht].
Defined.

(** ** C4 *)


(** ** C7 *)




(** ** C10 *)

Lemma lookup_prop_None {A} k (ps : list (string * A)) :
  lookup_prop k ps = None → k ∉ map fst ps.
Proof.
  induction ps as [|[k' x] r IH]; simpl; [intros _; apply not_elem_of_nil|].
  destruct (String.eqb k k') eqn:E; [done|]. apply String.eqb_neq in E.
  intros H. apply not_elem_of_cons. auto.
Qed.

Lemma set_prop_keys {A} k k' (x : A) ps :
  k' ∈ map fst (set_prop k x ps) → k' = k ∨ k' ∈ map fst ps.
Proof.
  destruct (decide (k ∈ map fst ps)) as [Hin|Hin].
  - rewrite set_prop_keys_in by done. auto.
  - rewrite set_prop_keys_notin, map_app, elem_of_app by done. simpl.
    rewrite list_elem_of_singleton. tauto.
Qed.

Lemma members_tree_keys f ms : ∀ acc k,
  k ∈ map fst (members_tree f ms acc) → k ∈ map fst acc ∨ k ∈ map fst ms.
Proof.
  induction ms as [|[k' x] r IH]; intros acc k; simpl; [auto|].
  intros [H|H]%IH; [|right; by right].
  apply set_prop_keys in H as [->|H]; [right; left|by left].
Qed.

Lemma ser_props_keys {A B} (f : A → result (option B)) ps : ∀ ms k,
  ser_props f ps = Ok ms → k ∈ map fst ms → k ∈ map fst ps.
Proof.
  induction ps as [|[k' x] r IH]; intros ms k; simpl.
  - by intros [= <-].
  - destruct (f x) as [o|e]; [|done].
    destruct (ser_props f r) as [ms'|e]; [|done].
    destruct o as [j|]; intros [= <-]; simpl.
    + rewrite !elem_of_cons. intros [->|H]; [by left|right; eauto].
    + intros H. right. eauto.
Qed.

(** C10, amended: the copy of an item's data is its JSON round trip, and
    the output data is that round trip with the token assigned under the
    field name; the assignment stores the token, except under the name
    [__proto__], where it stores it only over an own property of that
    name.  For a JSON-representable object the output is thus the input
    data with the token assigned.  The round trip equals the data exactly
    when the data is JSON-representable, so for data with no property
    under the field name the output is the input plus the token only
    then.  Data whose serialisation raises makes the item take the error
    path. *)
Theorem deep_copy_is_json_round_trip {W} (this : IExecuteFunctions W)
    (tok : value) (it : item) (i : nat) (s : state W) :
  let f := param_accessTokenFieldName this in
  (∀ e, JSON_stringify (st_heap s) (json it) = Throw e →
     buildItem this tok it i s = (Throw e, s) ∧
     ∀ rest acc,
       enrichItems this tok i (it :: rest) acc s
       = (let* acc' := itemFailed this acc i e in
          enrichItems this tok (S i) rest acc') s) ∧
  (∀ ps, is_prim tok = true → reads (st_heap s) (json it) (TObj ps) →
     JSON_stringify (st_heap s) (json it) = jsonify (TObj ps) ∧
     (json_ok (TObj ps) = true →
      ∃ new s', buildItem this tok it i s = (Ok new, s') ∧
        reads (st_heap s') (json new) (TObj (store_prop f (prim_tree tok) ps))) ∧
     (∀ j, jsonify (TObj ps) = Ok (Some j) →
        (json_tree j = TObj ps ↔ json_ok (TObj ps) = true) ∧
        ∃ new s', buildItem this tok it i s = (Ok new, s') ∧
          reads (st_heap s') (json new) (with_token f tok (json_tree j)) ∧
          (lookup_prop f ps = None →
           reads (st_heap s') (json new) (TObj (set_prop f (prim_tree tok) ps)) →
           json_ok (TObj ps) = true))).
Proof.
  intros f. split.
  - intros e He. pose proof (buildItem_throw this tok it i s e He) as Hb.
    split; [done|]. intros rest acc. rewrite enrichItems_cons, Hb. unfold bind.
    by destruct (itemFailed this acc i e s) as [[acc'|e'] s2].
  - intros ps Hprim Hr. split_and!.
    + by apply JSON_stringify_reads.
    + intros Hok. pose proof (buildItem_reads this tok it i s ps Hprim Hr) as Hb.
      destruct (json_ok_roundtrip _ Hok) as (j & Hj & Hjt). rewrite Hj in Hb.
      destruct Hb as (new & s' & Hb & _ & _ & Hfr). rewrite Hjt in Hfr.
      exists new, s'. split; [done|]. by apply fresh_reads_reads in Hfr.
    + intros j Hj. split.
      { split; [by apply roundtrip_json_ok|]. intros Hok.
        destruct (json_ok_roundtrip _ Hok) as (j' & Hj' & Hjt). congruence. }
      pose proof (buildItem_reads this tok it i s ps Hprim Hr) as Hb.
      rewrite Hj in Hb. destruct Hb as (new & s' & Hb & _ & _ & Hfr).
      exists new, s'. split; [done|]. apply fresh_reads_reads in Hfr.
      split; [done|]. intros Hnone Hout.
      pose proof (reads_det _ _ _ _ Hfr Hout) as Heq.
      apply (roundtrip_json_ok _ j Hj).
      destruct (jsonify_object_tree _ _ Hj) as [ms ->].
      cbn [json_tree with_token] in Heq |- *.
      injection Heq as Heq. f_equal.
      apply lookup_prop_None in Hnone.
      assert (f ∉ map fst (members_tree json_tree ms [])) as Hnot.
      { intros [Hin|Hin]%members_tree_keys; [by apply elem_of_nil in Hin|].
        apply Hnone. simpl in Hj. destruct (ser_props jsonify ps) as [ms'|] eqn:E; [|done].
        injection Hj as ->. by eapply ser_props_keys. }
      rewrite (set_prop_keys_notin f _ ps) in Heq by done.
      unfold store_prop in Heq. revert Heq.
      destruct (inherited_setter _ (members_tree json_tree ms [])); intros Heq.
      * exfalso. apply Hnot. rewrite Heq, map_app, elem_of_app. right. by left.
      * rewrite set_prop_keys_notin in Heq by done.
        by apply app_inj_tail in Heq as [-> _].
Qed.

Lemma deep_copy_is_json_round_trip_witness :
  let this := steady_host (VRef 1) [] "accessToken" "" true in
  (buildItem this (VStr "abc123") (Item (VRef 5) VUndef None) 0 (start faulty_store)
     = (Throw circular_structure, start faulty_store)) ∧
  (∃ new s',
     buildItem this (VStr "abc123") (Item (VRef 5) VUndef None) 0 (start foo_store)
       = (Ok new, s') ∧
     reads (st_heap s') (json new)
       (TObj [("foo", TNum 1); ("accessToken", TStr "abc123")])).
Proof.
  intros this. split.
  - apply (proj1 (deep_copy_is_json_round_trip this (VStr "abc123")
                    (Item (VRef 5) VUndef None) 0 (start faulty_store))).
    reflexivity.
  - apply (proj2 (deep_copy_is_json_round_trip this (VStr "abc123")
                    (Item (VRef 5) VUndef None) 0 (start foo_store))
             [("foo", TNum 1)]).
    + reflexivity.
    + by exists 1.
    + reflexivity.
Defined.

(** C10 as stated fails in one corner: the data [{accessToken: NaN}] is not
    JSON-representable, yet the output data is the input data with
    [accessToken] bound to the token, because the token overwrites the
    value the round trip changed. *)
Lemma masked_payload_still_enriched :
  let this := steady_host (VRef 1) [Item (VRef 5) VUndef None] "accessToken" "" false in
  json_ok (TObj [("accessToken", TNaN)]) = false ∧
  reads masked_store (VRef 5) (TObj [("accessToken", TNaN)]) ∧
  ∃ outs s' new,
    execute this (start masked_store) = (Ok outs, s') ∧
    outs !! 0 = Some new ∧
    reads (st_heap s') (json new)
      (TObj (set_prop "accessToken" (TStr "abc123") [("accessToken", TNaN)])).
Proof.
  intros this. split; [reflexivity|]. split; [by exists 1|].
  destruct (execute this (start masked_store)) as [r s'] eqn:E.
  vm_compute in E. injection E as <- <-.
  eexists _, _, _. split; [reflexivity|]. split; [reflexivity|]. by exists 1.
Qed.

(** * Further properties of the current source *)

(** ** Token extraction *)

(** X1: the token with which the item loop starts is truthy, and it is the
    first truthy value among the four probes of the credential record that
    steps 1 and 2 left; steps 1 to 3 leave the object store as it is. *)
Theorem resolved_token_is_first_truthy {W} (this : IExecuteFunctions W)
    (s s1 : state W) (tok : value) :
  resolveToken credentialFetch this s = (Ok tok, s1) →
  truthy tok = true ∧
  truthy (refreshedCredentials s1) = true ∧
  tok = first_truthy (probed_shapes (st_heap s1) (refreshedCredentials s1)) ∧
  st_heap s1 = st_heap s.
Proof.
  intros Hres. pose proof (resolveToken_heap _ _ _ _ Hres) as Hh.
  unfold resolveToken, bind in Hres.
  destruct (obtainCredentials credentialFetch this s) as [[[]|e] s2]; [|done].
  rewrite tokenExtract_spec in Hres.
  destruct (truthy (refreshedCredentials s2)) eqn:Hrc; [|done].
  destruct (truthy (probeToken (st_heap s2) (refreshedCredentials s2))) eqn:Ht; [|done].
  injection Hres as <- <-. split_and!; [done..| |done].
  by apply probeToken_first.
Qed.

Lemma resolved_token_is_first_truthy_witness :
  let this := steady_host (VRef 1) [] "accessToken" "" false in
  let s1 := State two_token_store () [CallGetCredentials "oAuth2Api"] (VStr "") (VRef 1) in
  truthy (VStr "xyz") = true ∧
  truthy (refreshedCredentials s1) = true ∧
  VStr "xyz" = first_truthy (probed_shapes two_token_store (VRef 1)) ∧
  st_heap s1 = two_token_store.
Proof.
  intros this s1.
  apply (resolved_token_is_first_truthy this (start two_token_store) s1 (VStr "xyz")).
  reflexivity.
Defined.

(** X2: a truthy top-level [accessToken] is the token, whatever else the
    credential record holds. *)
Theorem accessToken_always_wins {W} (s : state W) :
  truthy (prop (st_heap s) (refreshedCredentials s) "accessToken") = true →
  tokenExtract s = (Ok (prop (st_heap s) (refreshedCredentials s) "accessToken"), s).
Proof.
  intros Ha. rewrite tokenExtract_spec. unfold probeToken. rewrite Ha.
  destruct (truthy (refreshedCredentials s)) eqn:E; [by rewrite Ha|].
  by rewrite (prop_falsy_base _ _ _ E) in Ha.
Qed.

Lemma accessToken_always_wins_witness :
  tokenExtract (holding three_token_store (VRef 1))
    = (Ok (VStr "a"), holding three_token_store (VRef 1)).
Proof.
  apply (accessToken_always_wins (holding three_token_store (VRef 1))).
  reflexivity.
Defined.

(** X3: when [accessToken], [access_token] and [token] are absent or falsy
    at top level, the token is taken from [oauthTokenData]: its
    [access_token] if truthy, else its [accessToken] if truthy; the top-level
    [token] comes third, before [oauthTokenData]. *)
Theorem nested_token_data_last {W} (s : state W) :
  let h := st_heap s in
  let rc := refreshedCredentials s in
  let tokenData := prop h rc "oauthTokenData" in
  truthy (prop h rc "accessToken") = false →
  truthy (prop h rc "access_token") = false →
  (truthy (prop h rc "token") = true →
   tokenExtract s = (Ok (prop h rc "token"), s)) ∧
  (truthy (prop h rc "token") = false →
   (truthy (prop h tokenData "access_token") = true →
    tokenExtract s = (Ok (prop h tokenData "access_token"), s)) ∧
   (truthy (prop h tokenData "access_token") = false →
    truthy (prop h tokenData "accessToken") = true →
    tokenExtract s = (Ok (prop h tokenData "accessToken"), s))).
Proof.
  intros h rc td Ha Hb. subst h rc td. rewrite tokenExtract_spec. unfold probeToken.
  rewrite Ha, Hb.
  assert (∀ k k', truthy (prop (st_heap s)
                     (prop (st_heap s) (refreshedCredentials s) k) k') = true →
            truthy (prop (st_heap s) (refreshedCredentials s) k) = true ∧
            truthy (refreshedCredentials s) = true) as Hbase.
  { intros k k' H.
    destruct (truthy (prop (st_heap s) (refreshedCredentials s) k)) eqn:E1.
    - split; [done|]. destruct (truthy (refreshedCredentials s)) eqn:E2; [done|].
      by rewrite (prop_falsy_base _ _ _ E2) in E1.
    - by rewrite (prop_falsy_base _ _ _ E1) in H. }
  split; [|intros Hc; split].
  - intros Hc. rewrite Hc.
    destruct (truthy (refreshedCredentials s)) eqn:E; [by rewrite Hc|].
    by rewrite (prop_falsy_base _ _ _ E) in Hc.
  - intros Hd. destruct (Hbase _ _ Hd) as [-> ->]. rewrite Hc.
    unfold js_or. by rewrite !Hd.
  - intros Hd He. destruct (Hbase _ _ He) as [-> ->]. rewrite Hc.
    unfold js_or. by rewrite Hd, He.
Qed.

Lemma nested_token_data_last_witness :
  let s := holding (<[1 := CObj [("accessToken", VStr ""); ("oauthTokenData", VRef 2)]]>
                      (<[2 := CObj [("access_token", VNull);
                                    ("accessToken", VStr "nested")]]> ∅)) (VRef 1) in
  tokenExtract s = (Ok (VStr "nested"), s).
Proof.
  intros s.
  apply (proj2 (proj2 (nested_token_data_last s eq_refl eq_refl) eq_refl) eq_refl).
  reflexivity.
Defined.

(** ** Steps 1 and 2 *)

Lemma get_prop_opt_prop h v k : get_prop_opt h v k = prop h v k.
Proof. unfold get_prop_opt. by destruct v. Qed.

Ltac run_phases :=
  unfold obtainCredentials, refreshTrigger, refreshAttempt, credentialFetch,
    try_catch, bind, call_getCredentials, call_requestOAuth2, get_dummyUrl,
    get_heap, lift_result, set_dummyUrl, set_refreshedCredentials,
    get_refreshedCredentials, get_prop, ret, throw;
  cbn [st_heap st_world st_calls dummyUrl refreshedCredentials].

(** X4: with no probe URL configured and none in the credential record
    ([tokenUrl] and [auth.oauth_token_url] absent or falsy), no request is
    made and the record of the single fetch is the one handed to step 3. *)
Theorem no_probe_target_reuses_first_record {W} (this : IExecuteFunctions W)
    (s : state W) (rc : value) (w1 : W) :
  param_dummyUrl this = "" →
  getCredentials this "oAuth2Api" (st_world s) = (Ok rc, w1) →
  truthy rc = true →
  truthy (prop (st_heap s) rc "tokenUrl") = false →
  truthy (prop (st_heap s) (prop (st_heap s) rc "auth") "oauth_token_url") = false →
  obtainCredentials credentialFetch this s
    = (Ok (), State (st_heap s) w1 (CallGetCredentials "oAuth2Api" :: st_calls s)
                (VStr "") rc).
Proof.
  intros Hd Hg Hrc Ht Ha. run_phases. rewrite Hd, Hg. cbn.
  assert (nullish rc = false) as -> by (by destruct rc).
  cbn. rewrite get_prop_opt_prop. unfold js_or. rewrite Ht, Ha. cbn.
  unfold js_or, js_and, js_not. cbn. by rewrite Hrc.
Qed.

Lemma no_probe_target_reuses_first_record_witness :
  obtainCredentials credentialFetch
    (steady_host (VRef 1) [] "accessToken" "" false) (start foo_store)
  = (Ok (), State foo_store () [CallGetCredentials "oAuth2Api"] (VStr "") (VRef 1)).
Proof.
  apply (no_probe_target_reuses_first_record
           (steady_host (VRef 1) [] "accessToken" "" false) (start foo_store)
           (VRef 1) ()); reflexivity.
Defined.

(** X5: with a probe URL configured, one GET request with the fixed
    options goes to that URL right after the first fetch, and, whether the
    request succeeds or fails with an [Error] or with a primitive other
    than [null] and [undefined], the record handed to step 3 is the one
    fetched after the request.  When the request is rejected with [null] or
    [undefined], steps 1 and 2 end with the [TypeError] that reading the
    caught value raises, after the fetch and the request. *)
Theorem probe_then_refetch {W} (this : IExecuteFunctions W) (s : state W)
    (u : string) (c1 rc : value) (r : result unit) (w1 w2 w3 : W) :
  param_dummyUrl this = u → u ≠ "" →
  getCredentials this "oAuth2Api" (st_world s) = (Ok c1, w1) →
  requestOAuth2 this "oAuth2Api" (dummyRequestOptions (VStr u)) w1 = (r, w2) →
  getCredentials this "oAuth2Api" w2 = (Ok rc, w3) →
  truthy rc = true →
  ((∀ t, r = Throw t → readable t = true) →
   obtainCredentials credentialFetch this s
     = (Ok (), State (st_heap s) w3
                 ([CallGetCredentials "oAuth2Api";
                   CallRequestOAuth2 "oAuth2Api"
                     {| method := "GET"; url := VStr u;
                        ignoreHttpStatusErrors := true; returnFullResponse := false;
                        timeout := 5000;
                        headers := [("Accept", VStr "application/json")] |};
                   CallGetCredentials "oAuth2Api"] ++ st_calls s)
                 (VStr u) rc)) ∧
  (∀ t, r = Throw t → readable t = false →
   ∃ e : exn,
     exn_name e = "TypeError" ∧
     obtainCredentials credentialFetch this s
       = (Throw e, State (st_heap s) w2
                     ([CallRequestOAuth2 "oAuth2Api" (dummyRequestOptions (VStr u));
                       CallGetCredentials "oAuth2Api"] ++ st_calls s)
                     (VStr u) VUndef)).
Proof.
  intros Hd Hu Hg Hr Hg2 Hrc.
  assert (String.eqb u "" = false) as Hne by (by apply String.eqb_neq).
  split.
  - intros Hread. run_phases.
    destruct s as [h w cs d0 rc0]. simpl in *. rewrite Hd, Hg. simpl.
    repeat (first [rewrite Hne | rewrite Hr]; simpl).
    destruct r as [[]|t]; simpl; [by rewrite Hg2; simpl|].
    destruct (readable_reads t (Hread t eq_refl)) as (m & x & -> & ->). simpl.
    rewrite Hg2. simpl.
    unfold js_or, js_and, js_not. simpl. rewrite Hrc. simpl. by rewrite Hne.
  - intros t -> Hun. exists cannot_read_properties. split; [done|]. run_phases.
    destruct s as [h w cs d0 rc0]. simpl in *. rewrite Hd, Hg. simpl.
    repeat (first [rewrite Hne | rewrite Hr]; simpl).
    by rewrite (unreadable_reads t Hun).
Qed.

Lemma probe_then_refetch_witness :
  let this := refreshing_host (VRef 1) (VRef 2)
                (Throw (JsError "Error" "timeout" None)) [] "accessToken"
                "https://api/me" false in
  obtainCredentials credentialFetch this (State refresh_store false [] VUndef VUndef)
  = (Ok (), State refresh_store true
              [CallGetCredentials "oAuth2Api";
               CallRequestOAuth2 "oAuth2Api"
                 {| method := "GET"; url := VStr "https://api/me";
                    ignoreHttpStatusErrors := true; returnFullResponse := false;
                    timeout := 5000;
                    headers := [("Accept", VStr "application/json")] |};
               CallGetCredentials "oAuth2Api"]
              (VStr "https://api/me") (VRef 2)).
Proof.
  intros this.
  apply (probe_then_refetch this (State refresh_store false [] VUndef VUndef)
           "https://api/me" (VRef 1) (VRef 2)
           (Throw (JsError "Error" "timeout" None)) false true true);
    try reflexivity.
  - discriminate.
  - intros t H. injection H as <-. reflexivity.
Defined.

(** X6: with no probe URL configured, the request goes to the record's
    [tokenUrl] if truthy, else to its [auth.oauth_token_url]; and again,
    whether the request succeeds or fails with an [Error] or with a
    primitive other than [null] and [undefined], the record handed to
    step 3 is the one fetched after the request, while a request rejected
    with [null] or [undefined] ends steps 1 and 2 with a [TypeError]. *)
Theorem probe_target_from_record {W} (this : IExecuteFunctions W) (s : state W)
    (c1 rc : value) (r : result unit) (w1 w2 w3 : W) :
  let target := js_or (prop (st_heap s) c1 "tokenUrl")
                  (prop (st_heap s) (prop (st_heap s) c1 "auth") "oauth_token_url") in
  param_dummyUrl this = "" →
  getCredentials this "oAuth2Api" (st_world s) = (Ok c1, w1) →
  truthy target = true →
  requestOAuth2 this "oAuth2Api" (dummyRequestOptions target) w1 = (r, w2) →
  getCredentials this "oAuth2Api" w2 = (Ok rc, w3) →
  truthy rc = true →
  ((∀ t, r = Throw t → readable t = true) →
   obtainCredentials credentialFetch this s
     = (Ok (), State (st_heap s) w3
                 ([CallGetCredentials "oAuth2Api";
                   CallRequestOAuth2 "oAuth2Api" (dummyRequestOptions target);
                   CallGetCredentials "oAuth2Api"] ++ st_calls s)
                 target rc)) ∧
  (∀ t, r = Throw t → readable t = false →
   ∃ e : exn,
     exn_name e = "TypeError" ∧
     obtainCredentials credentialFetch this s
       = (Throw e, State (st_heap s) w2
                     ([CallRequestOAuth2 "oAuth2Api" (dummyRequestOptions target);
                       CallGetCredentials "oAuth2Api"] ++ st_calls s)
                     target VUndef)).
Proof.
  intros target Hd Hg Ht Hr Hg2 Hrc.
  assert (nullish c1 = false) as Hn.
  { destruct c1; try done; by vm_compute in Ht. }
  assert (js_or target (VStr "") = target) as Hor by (unfold js_or; by rewrite Ht).
  split.
  - intros Hread.
    run_phases. destruct s as [h w cs d0 rc0]. simpl in *. rewrite Hd, Hg. simpl.
    rewrite Hn. simpl. rewrite get_prop_opt_prop. fold target. rewrite Hor, Ht. simpl.
    rewrite Hr.
    destruct r as [[]|t]; simpl; [by rewrite Hg2; simpl|].
    destruct (readable_reads t (Hread t eq_refl)) as (m & x & -> & ->). simpl.
    rewrite Hg2. simpl.
    unfold js_or, js_and, js_not. simpl. rewrite Hrc. simpl. by rewrite Ht.
  - intros t -> Hun. exists cannot_read_properties. split; [done|].
    run_phases. destruct s as [h w cs d0 rc0]. simpl in *. rewrite Hd, Hg. simpl.
    rewrite Hn. simpl. rewrite get_prop_opt_prop. fold target. rewrite Hor, Ht. simpl.
    rewrite Hr. simpl. by rewrite (unreadable_reads t Hun).
Qed.

Lemma probe_target_from_record_witness :
  let this := refreshing_host (VRef 1) (VRef 2) (Ok ()) [] "accessToken" "" false in
  obtainCredentials credentialFetch this (State refresh_store false [] VUndef VUndef)
  = (Ok (), State refresh_store true
              [CallGetCredentials "oAuth2Api";
               CallRequestOAuth2 "oAuth2Api" (dummyRequestOptions (VStr "https://id/token"));
               CallGetCredentials "oAuth2Api"]
              (VStr "https://id/token") (VRef 2)).
Proof.
  intros this.
  apply (probe_target_from_record this (State refresh_store false [] VUndef VUndef)
           (VRef 1) (VRef 2) (Ok ()) false true true); try reflexivity.
  intros t H. discriminate H.
Defined.

Lemma credentialFetch_calls {W} (this : IExecuteFunctions W) (s s' : state W) r :
  credentialFetch this s = (r, s') →
  st_calls s' = st_calls s ∨ st_calls s' = CallGetCredentials "oAuth2Api" :: st_calls s.
Proof.
  unfold credentialFetch, try_catch, bind, get_refreshedCredentials, get_dummyUrl,
    call_getCredentials, set_refreshedCredentials, ret, throw, lift_result.
  destruct (truthy _).
  - destruct (getCredentials this "oAuth2Api" (st_world s)) as [[c|t] w1];
      [intros [= <- <-]; by right|].
    destruct (thrown_message t); intros [= <- <-]; by right.
  - intros [= <- <-]. by left.
Qed.

(** X7: one run of [execute] calls the credential store at most three
    times and the request helper at most once. *)
Theorem execute_call_bound {W} (this : IExecuteFunctions W) (s s' : state W)
    (r : result (list item)) :
  execute this s = (r, s') →
  ∃ calls, st_calls s' = calls ++ st_calls s ∧
    length (filter (λ c, is_fetch c = true) calls) ≤ 3 ∧
    length (filter (λ c, is_request c = true) calls) ≤ 1.
Proof.
  rewrite execute_unfold. unfold resolveToken, obtainCredentials.
  unfold bind at 1 2 3 4. unfold set_dummyUrl at 1. unfold set_refreshedCredentials at 1.
  cbn [st_heap st_world st_calls dummyUrl refreshedCredentials].
  match goal with |- context [refreshTrigger this ?s0] =>
    destruct (refreshTrigger_spec this s0)
      as (r0 & s1 & -> & _ & (calls & Hc & Hf & Hr) & _) end.
  cbn [st_calls] in Hc.
  destruct r0 as [[]|t0].
  2: { intros [= <- <-]. exists calls. split_and!; [done|lia|done]. }
  destruct (credentialFetch this s1) as [[[]|e] s2] eqn:Ef;
    apply credentialFetch_calls in Ef.
  - assert (∃ calls2, st_calls s2 = calls2 ++ st_calls s ∧
              length (filter (λ c, is_fetch c = true) calls2) ≤ 3 ∧
              length (filter (λ c, is_request c = true) calls2) ≤ 1)
      as (calls2 & Hc2 & Hf2 & Hr2).
    { destruct Ef as [Ef|Ef]; rewrite Ef, Hc.
      - exists calls. split_and!; [done|lia|done].
      - exists (CallGetCredentials "oAuth2Api" :: calls). split_and!; [done|..].
        + rewrite filter_cons_True by done. simpl. lia.
        + by rewrite filter_cons_False by done. }
    destruct (tokenExtract s2) as [[tok|e] s3] eqn:Et;
      apply tokenExtract_state in Et as ->.
    + intros He. destruct (enrichItems_inv _ _ _ _ _ _ _ _ He) as (h' & -> & _).
      by exists calls2.
    + intros [= <- <-]. by exists calls2.
  - intros [= <- <-]. destruct Ef as [Ef|Ef]; rewrite Ef, Hc.
    + exists calls. split_and!; [done|lia|done].
    + exists (CallGetCredentials "oAuth2Api" :: calls). split_and!; [done|..].
      * rewrite filter_cons_True by done. simpl. lia.
      * by rewrite filter_cons_False by done.
Qed.

Lemma execute_call_bound_witness :
  let this := refreshing_host (VRef 1) (VRef 2) (Ok ())
                [Item (VRef 5) VUndef None] "accessToken" "" false in
  let out := execute this (State refresh_store false [] VUndef VUndef) in
  ∃ calls, st_calls out.2 = calls ++ [] ∧
    length (filter (λ c, is_fetch c = true) calls) ≤ 3 ∧
    length (filter (λ c, is_request c = true) calls) ≤ 1.
Proof.
  intros this out.
  apply (execute_call_bound this (State refresh_store false [] VUndef VUndef)
           out.2 out.1).
  vm_compute. reflexivity.
Defined.

(** X8: when every fetch of the credential store raises [e], [execute]
    fails with the [NodeOperationError] "Failed to retrieve OAuth2
    credentials after refresh attempt: " followed by the message of [e];
    no request is made and the object store is left as it is. *)
Theorem unreachable_store_is_fatal {W} (this : IExecuteFunctions W) (s : state W)
    (e : exn) :
  (∀ w, ∃ w', getCredentials this "oAuth2Api" w = (Throw e, w')) →
  ∃ s', execute this s
      = (Throw (NodeOperationError
                  ("Failed to retrieve OAuth2 credentials after refresh attempt: "
                     ++ exn_message e)%string []), s') ∧
    st_heap s' = st_heap s ∧
    filter (λ c, is_request c = true) (st_calls s')
      = filter (λ c, is_request c = true) (st_calls s).
Proof.
  intros Hfail. rewrite execute_unfold. unfold resolveToken. run_phases.
  destruct s as [h w cs d0 rc0]. simpl.
  destruct (Hfail w) as [w1 ->]. simpl.
  destruct (Hfail w1) as [w2 ->]. simpl.
  destruct (Hfail w2) as [w3 ->]. simpl.
  eexists. split; [done|]. split; [done|]. simpl.
  by rewrite !filter_cons_False by done.
Qed.

Lemma unreachable_store_is_fatal_witness :
  let e := JsError "Error" "credentials could not be decrypted" None in
  let this := failing_host e [Item (VRef 5) VUndef None] "accessToken" "" false in
  ∃ s', execute this (start foo_store)
      = (Throw (NodeOperationError
                  "Failed to retrieve OAuth2 credentials after refresh attempt: credentials could not be decrypted"
                  []), s') ∧
    st_heap s' = foo_store ∧
    filter (λ c, is_request c = true) (st_calls s') = [].
Proof.
  intros e this.
  apply (unreachable_store_is_fatal this (start foo_store) e).
  intros w. by exists w.
Defined.

Lemma execute_after_refresh {W} (this : IExecuteFunctions W) (s s1 : state W) :
  refreshTrigger this
    (State (st_heap s) (st_world s) (st_calls s) (VStr (param_dummyUrl this)) VUndef)
    = (Ok (), s1) →
  execute this s =
    (credentialFetch this;;
     let* accessToken := tokenExtract in
     enrichItems this accessToken 0 (getInputData this) []) s1.
Proof.
  intros Hr. unfold execute, execute_with, resolveToken, obtainCredentials.
  unfold bind at 1 2 3 4 5. unfold set_dummyUrl at 1. unfold set_refreshedCredentials at 1.
  cbn [st_heap st_world st_calls dummyUrl refreshedCredentials].
  rewrite Hr. unfold bind.
  destruct (credentialFetch this s1) as [[[]|e] s2]; [|done].
  by destruct (tokenExtract s2) as [[tok|e] s3].
Qed.

Lemma execute_refresh_aborted {W} (this : IExecuteFunctions W) (s s1 : state W) t :
  refreshTrigger this
    (State (st_heap s) (st_world s) (st_calls s) (VStr (param_dummyUrl this)) VUndef)
    = (Throw t, s1) →
  execute this s = (Throw t, s1).
Proof.
  intros Hr. unfold execute, execute_with, resolveToken, obtainCredentials.
  unfold bind at 1 2 3 4 5. unfold set_dummyUrl at 1. unfold set_refreshedCredentials at 1.
  cbn [st_heap st_world st_calls dummyUrl refreshedCredentials].
  by rewrite Hr.
Qed.

(** X9: when the credential store never raises but never returns a usable
    record (every fetch returns a falsy value), [execute] fails with the
    [NodeOperationError] "Failed to retrieve OAuth2 credentials."; the one
    other outcome is the [TypeError] of step 1 when the request helper is
    rejected with [null] or [undefined]. *)
Theorem missing_record_is_fatal {W} (this : IExecuteFunctions W) (s : state W) :
  (∀ w, ∃ v w', getCredentials this "oAuth2Api" w = (Ok v, w') ∧ truthy v = false) →
  ∃ (e : exn) s', execute this s = (Throw e, s') ∧
    st_heap s' = st_heap s ∧
    (e = NodeOperationError "Failed to retrieve OAuth2 credentials." [] ∨
     exn_name e = "TypeError" ∧ ¬ readable_host this).
Proof.
  intros Hnone.
  destruct (refreshTrigger_spec this
              (State (st_heap s) (st_world s) (st_calls s)
                 (VStr (param_dummyUrl this)) VUndef))
    as (r & s1 & Hr & Hh & _ & [->| ->] & Hok).
  2: { exists cannot_read_properties, s1.
       rewrite (execute_refresh_aborted this s s1 _ Hr). split_and!; [done|done|].
       right. split; [done|]. intros Hhost. by specialize (Hok Hhost). }
  rewrite (execute_after_refresh this s s1 Hr). cbn [st_heap] in Hh.
  assert (truthy (refreshedCredentials s1) = false) as Hrc.
  { revert Hr. unfold refreshTrigger, refreshAttempt.
    unfold try_catch, bind, call_getCredentials, call_requestOAuth2, get_dummyUrl,
      get_heap, lift_result, set_dummyUrl, set_refreshedCredentials,
      get_refreshedCredentials, ret.
    cbn [st_heap st_world st_calls dummyUrl refreshedCredentials].
    destruct (Hnone (st_world s)) as (v & w1 & -> & Hv).
    cbn [st_heap st_world st_calls dummyUrl refreshedCredentials].
    repeat (case_match; simplify_eq/=; try done);
      try (destruct (Hnone w1) as (v2 & w2 & Hg2 & Hv2); simplify_eq/=; try done);
      try (destruct (Hnone w) as (v3 & w3 & Hg3 & Hv3); simplify_eq/=; try done);
      intros; simplify_eq/=; try done; congruence. }
  unfold credentialFetch, try_catch, bind, get_refreshedCredentials, get_dummyUrl,
    call_getCredentials, set_refreshedCredentials, ret.
  rewrite fetch_guard. unfold js_not. cbn [truthy]. rewrite Hrc. cbn [negb].
  destruct (Hnone (st_world s1)) as (v & w1 & -> & Hv).
  rewrite tokenExtract_spec. cbn [refreshedCredentials]. rewrite Hv.
  eexists _, _. split; [done|]. split; [done|]. by left.
Qed.

Lemma missing_record_is_fatal_witness :
  let this := steady_host VUndef [Item (VRef 5) VUndef None] "accessToken" "" false in
  ∃ s', execute this (start foo_store)
      = (Throw (NodeOperationError "Failed to retrieve OAuth2 credentials." []), s') ∧
    st_heap s' = foo_store.
Proof.
  intros this.
  destruct (missing_record_is_fatal this (start foo_store))
    as (e & s' & He & Hh & [->|[_ Hn]]).
  - intros w. exists VUndef, w. split; reflexivity.
  - exists s'. split; [exact He|exact Hh].
  - exfalso. apply Hn. split.
    + intros name w t w' H. discriminate H.
    + intros name o w t w' H. discriminate H.
Defined.

(** ** The item loop *)

Section loop_properties.
Context {W : Type}.
Implicit Types (s : state W) (this : IExecuteFunctions W).

Lemma enrichItems_position this tok items : ∀ i acc s outs s',
  is_prim tok = true →
  enrichItems this tok i items acc s = (Ok outs, s') →
  ∀ k it ps, items !! k = Some it →
    reads (st_heap s) (json it) (TObj ps) → json_ok (TObj ps) = true →
    ∃ new, outs !! (length acc + k) = Some new ∧
      pairedItem new = Some (i + k) ∧
      reads (st_heap s') (json new)
        (TObj (store_prop (param_accessTokenFieldName this) (prim_tree tok) ps)).
Proof.
  induction items as [|it0 rest IH]; intros i acc s outs s' Hprim He k it ps Hk Hr Hok.
  { by rewrite lookup_nil in Hk. }
  rewrite enrichItems_cons in He. destruct k as [|k]; simpl in Hk.
  - injection Hk as ->.
    pose proof (buildItem_reads this tok it i s ps Hprim Hr) as Hb.
    destruct (json_ok_roundtrip _ Hok) as (j & Hj & Hjt). rewrite Hj in Hb.
    destruct Hb as (new & s1 & Hb & S1 & Hp & Hfr). rewrite Hb in He.
    rewrite Hjt in Hfr. cbn [with_token] in Hfr.
    destruct (enrichItems_inv _ _ _ _ _ _ _ _ He) as (h' & -> & S2 & Houts).
    destruct (Houts outs eq_refl) as (news & Ho & _). clear Houts. subst outs.
    exists new. rewrite !Nat.add_0_r. split_and!; [|done|].
    + rewrite <-app_assoc. by rewrite lookup_app_r, Nat.sub_diag by lia.
    + eapply reads_weaken; [exact S2|]. by apply fresh_reads_reads in Hfr.
  - destruct (buildItem this tok it0 i s) as [[new0|e] s1] eqn:Eb;
      destruct (buildItem_inv _ _ _ _ _ _ _ Eb) as (h1 & -> & S1 & _).
    + destruct (IH _ _ _ _ _ Hprim He k it ps Hk) as (new & Hn & Hp & Hrd);
        [by eapply reads_weaken|done|].
      exists new. rewrite length_app in Hn. simpl in Hn.
      replace (length acc + S k) with (length acc + 1 + k) by lia.
      split_and!; [done| |done]. rewrite Hp. f_equal. lia.
    + destruct (itemFailed this acc i e (with_heap h1 s)) as [[acc'|e'] s2] eqn:Ef;
        [|done].
      destruct (itemFailed_heap _ _ _ _ _ _ _ Ef) as (h2 & -> & S2).
      destruct (itemFailed_root _ _ _ _ _ _ _ Ef) as (new0 & l & -> & _).
      destruct (IH _ _ _ _ _ Hprim He k it ps Hk) as (new & Hn & Hp & Hrd);
        [|done|].
      { eapply reads_weaken; [|exact Hr]. by etrans. }
      exists new. rewrite length_app in Hn. simpl in Hn.
      replace (length acc + S k) with (length acc + 1 + k) by lia.
      split_and!; [done| |done]. rewrite Hp. f_equal. lia.
Qed.
End loop_properties.

(** X10: enrichment is per item.  Whenever [execute] returns, the record
    at the position of each input whose data is a JSON-representable object
    holds that data with the token assigned under the field name and
    carries the index of the input, whatever the other items of the batch
    are and whether or not they failed.  The assignment stores the token
    under any field name but [__proto__], under which it stores it only
    over an own property of that name. *)
Theorem enrichment_is_per_item {W} (this : IExecuteFunctions W) (s s1 s' : state W)
    (tok : value) (outs : list item) :
  resolveToken credentialFetch this s = (Ok tok, s1) →
  is_prim tok = true →
  execute this s = (Ok outs, s') →
  ∀ k it ps, getInputData this !! k = Some it →
    reads (st_heap s) (json it) (TObj ps) → json_ok (TObj ps) = true →
    ∃ new, outs !! k = Some new ∧
      pairedItem new = Some k ∧
      reads (st_heap s') (json new)
        (TObj (store_prop (param_accessTokenFieldName this) (prim_tree tok) ps)) ∧
      (param_accessTokenFieldName this ≠ "__proto__" →
       lookup_prop (param_accessTokenFieldName this)
         (store_prop (param_accessTokenFieldName this) (prim_tree tok) ps)
       = Some (prim_tree tok)) ∧
      (param_accessTokenFieldName this = "__proto__" →
       lookup_prop "__proto__" ps = None →
       reads (st_heap s') (json new) (TObj ps)).
Proof.
  intros Hres Hprim He k it ps Hk Hr Hok.
  rewrite execute_unfold, Hres in He.
  pose proof (resolveToken_heap _ _ _ _ Hres) as Hh.
  destruct (enrichItems_position this tok _ 0 [] s1 outs s' Hprim He k it ps Hk)
    as (new & Hnew & Hp & Hrd); [by rewrite Hh|done|].
  exists new. split_and!; [done..| |].
  - intros Hf. rewrite store_prop_other by done. apply lookup_set_prop_eq.
  - intros Hf Hnone. rewrite Hf, store_prop_proto, Hnone in Hrd. exact Hrd.
Qed.

Lemma enrichment_is_per_item_witness :
  let good := Item (VRef 4) VUndef None in
  let bad := Item (VRef 5) VUndef None in
  let this := steady_host (VRef 1) [good; good; bad; good; good] "accessToken" "" true in
  ∃ outs s' new,
    execute this (start faulty_store) = (Ok outs, s') ∧
    outs !! 3 = Some new ∧ pairedItem new = Some 3 ∧
    reads (st_heap s') (json new)
      (TObj [("foo", TNum 1); ("accessToken", TStr "abc123")]).
Proof.
  intros good bad this.
  assert (∃ outs s', execute this (start faulty_store) = (Ok outs, s'))
    as (outs & s' & He) by (eexists _, _; vm_compute; reflexivity).
  destruct (enrichment_is_per_item this (start faulty_store)
              (State faulty_store () [CallGetCredentials "oAuth2Api"] (VStr "") (VRef 1))
              s' (VStr "abc123") outs) with (k := 3) (it := good) (ps := [("foo", TNum 1)])
    as (new & Hnew & Hp & Hrd & _);
    [vm_compute; reflexivity|reflexivity|exact He|reflexivity|exists 1; reflexivity
    |reflexivity|].
  exists outs, s', new. split; [exact He|]. split; [exact Hnew|]. split; [exact Hp|].
  exact Hrd.
Defined.

(** X11: the attachment is copied shallowly.  An item without [binary]
    yields a record without it; an item whose [binary] is an object yields
    a record whose [binary] is a new cell holding the same entries, so what
    those entries refer to is shared with the input, and the cell of the
    input is left as it is. *)
Theorem attachment_is_shallow_copy {W} (this : IExecuteFunctions W) (tok : value)
    (it new : item) (i : nat) (s s' : state W) :
  buildItem this tok it i s = (Ok new, s') →
  (truthy (binary it) = false → binary new = VUndef) ∧
  (∀ b ps, binary it = VRef b → st_heap s !! b = Some (CObj ps) →
     ∃ l, binary new = VRef l ∧ st_heap s !! l = None ∧
       st_heap s' !! l = Some (CObj ps) ∧ st_heap s' !! b = Some (CObj ps)).
Proof.
  intros Hb. pose proof (buildItem_inv _ _ _ _ _ _ _ Hb) as (h' & Hs' & Hsub & _).
  revert Hb.
  unfold buildItem, bind, get_heap, lift_result, parse, JSON_parse, assign.
  destruct (JSON_stringify (st_heap s) (json it)) as [[j|]|e] eqn:Ej; [|done..].
  destruct (parse_value j (st_heap s)) as [v h1] eqn:Ep.
  destruct (parse_value_spec _ _ _ _ Ep) as [S1 _].
  destruct (truthy (binary it)) eqn:Hbin.
  - unfold spread, new_cell. cbn [st_heap with_heap].
    destruct (alloc (CObj (own_props h1 (binary it))) h1) as [l h2] eqn:Ea.
    destruct (alloc_spec _ _ _ _ Ea) as (Hl & -> & S2).
    unfold ret. cbn [json st_heap with_heap].
    destruct (put_prop _ v (param_accessTokenFieldName this) tok) as [h3|e] eqn:Eput;
      [|done].
    intros [= <- <-]. split; [done|]. intros b ps Hb Hps. exists l.
    cbn [binary st_heap with_heap].
    pose proof (lookup_weaken _ _ _ _ Hps S1) as Hps1.
    rewrite Hb in *. unfold own_props in *. rewrite Hps1 in *.
    split_and!; [done|by eapply lookup_None_weaken|..].
    + rewrite (put_prop_other _ _ _ _ _ l Eput); [by rewrite lookup_insert_eq|].
      intros ->. destruct (parse_value_root _ _ _ _ Ep) as [_ [c1 Hc1]]. congruence.
    + rewrite (put_prop_other _ _ _ _ _ b Eput).
      * rewrite lookup_insert_ne; [done|]. intros ->. congruence.
      * intros ->. destruct (parse_value_root _ _ _ _ Ep) as [Hfresh _]. congruence.
  - unfold ret. cbn [json st_heap with_heap].
    destruct (put_prop _ v (param_accessTokenFieldName this) tok) as [h3|e] eqn:Eput;
      [|done].
    intros [= <- <-]. split; [done|]. intros b ps Hb. by rewrite Hb in Hbin.
Qed.

Lemma attachment_is_shallow_copy_witness :
  let this := steady_host (VRef 1) [] "accessToken" "" false in
  let h' := <[9 := CObj [("foo", VNum 1); ("accessToken", VStr "abc123")]]>
              (<[10 := CObj [("file", VRef 8)]]> binary_store) in
  ∃ l, VRef 10 = VRef l ∧ binary_store !! l = None ∧
    h' !! l = Some (CObj [("file", VRef 8)]) ∧
    h' !! 7 = Some (CObj [("file", VRef 8)]).
Proof.
  intros this h'.
  apply (proj2 (attachment_is_shallow_copy this (VStr "abc123")
                  (Item (VRef 5) (VRef 7) None) (Item (VRef 9) (VRef 10) (Some 0)) 0
                  (start binary_store) (with_heap h' (start binary_store))
                  ltac:(vm_compute; reflexivity)) 7 [("file", VRef 8)]);
    reflexivity.
Defined.

(** X12: an item whose data is not an object is never enriched.
    Building it raises a [SyntaxError] when the data is [undefined]
    (nothing to parse) and a [TypeError] when it is [null] or a non-finite
    number (which the copy turns into [null]).  When it is a boolean, a
    number or a string, building it raises a [TypeError] under every field
    name but [__proto__], under which the assignment does nothing and the
    record carries the data as it is.  No existing cell is changed. *)
Theorem primitive_data_never_enriched {W} (this : IExecuteFunctions W) (tok : value)
    (it : item) (i : nat) (s : state W) :
  is_prim (json it) = true →
  ∃ r s', buildItem this tok it i s = (r, s') ∧
    st_heap s ⊆ st_heap s' ∧
    match json it with
    | VUndef => ∃ e : exn, r = Throw e ∧ exn_name e = "SyntaxError"
    | VNull | VNaN => ∃ e : exn, r = Throw e ∧ exn_name e = "TypeError"
    | v =>
        if String.eqb (param_accessTokenFieldName this) "__proto__"
        then ∃ new, r = Ok new ∧ json new = v ∧ pairedItem new = Some i
        else ∃ e : exn, r = Throw e ∧ exn_name e = "TypeError"
    end.
Proof.
  intros Hprim.
  assert (∃ bin h2, (if truthy (binary it) then spread (binary it) else ret VUndef) s
                    = (Ok bin, with_heap h2 s) ∧ st_heap s ⊆ h2)
    as (bin & h2 & Hsp & S2).
  { destruct (truthy (binary it)).
    - destruct (spread_spec (binary it) (st_heap s) s) as (bin & h2 & Hsp & S2).
      rewrite with_heap_id in Hsp. eauto.
    - exists VUndef, (st_heap s). by rewrite with_heap_id. }
  unfold buildItem, bind, get_heap, lift_result, parse, JSON_parse, assign, ret in *.
  destruct (json it) as [| | b | n | | str | l] eqn:Ej; try done; cbn;
    rewrite ?with_heap_id, ?Hsp; cbn.
  - exists (Throw not_valid_json), s. split_and!; [done|done|]. by exists not_valid_json.
  - exists (Throw cannot_set_properties), (with_heap h2 s).
    split_and!; [done|done|]. by exists cannot_set_properties.
  - destruct (String.eqb _ "__proto__"); eexists _, _;
      (split_and!; [done|done|]); eauto.
  - destruct (String.eqb _ "__proto__"); eexists _, _;
      (split_and!; [done|done|]); eauto.
  - exists (Throw cannot_set_properties), (with_heap h2 s).
    split_and!; [done|done|]. by exists cannot_set_properties.
  - destruct (String.eqb _ "__proto__"); eexists _, _;
      (split_and!; [done|done|]); eauto.
Qed.

Lemma primitive_data_never_enriched_witness :
  let this := steady_host (VRef 1) [] "accessToken" "" true in
  ∃ r s', buildItem this (VStr "abc123") (Item (VStr "plain text") VUndef None) 0
            (start foo_store) = (r, s') ∧
    foo_store ⊆ st_heap s' ∧
    ∃ e : exn, r = Throw e ∧ exn_name e = "TypeError".
Proof.
  intros this.
  apply (primitive_data_never_enriched this (VStr "abc123")
           (Item (VStr "plain text") VUndef None) 0 (start foo_store)).
  reflexivity.
Defined.

(** X13: the loop composes over concatenation: the items of [xs ++ ys]
    are processed as those of [xs], then, unless the batch was aborted,
    those of [ys] from the state and the output reached, their indices
    continuing after those of [xs]. *)
Theorem batch_composes {W} (this : IExecuteFunctions W) (tok : value)
    (xs ys acc : list item) (i : nat) (s : state W) :
  enrichItems this tok i (xs ++ ys) acc s =
  match enrichItems this tok i xs acc s with
  | (Ok acc', s1) => enrichItems this tok (i + length xs) ys acc' s1
  | (Throw e, s1) => (Throw e, s1)
  end.
Proof. apply enrichItems_app. Qed.

(** X14: enrichment can be repeated.  After a run over a batch of
    JSON-representable objects, a second run over the same batch, from the
    store the first run left, returns records with the same tags and
    structurally equal data, and the inputs still read as before the first
    run. *)
Theorem enrichment_is_repeatable {W} (this : IExecuteFunctions W) (tok : value)
    (items outs1 : list item) (s s1 : state W) :
  is_prim tok = true →
  Forall (λ it, ∃ ps, reads (st_heap s) (json it) (TObj ps) ∧
                      json_ok (TObj ps) = true) items →
  enrichItems this tok 0 items [] s = (Ok outs1, s1) →
  ∃ outs2 s2,
    enrichItems this tok 0 items [] s1 = (Ok outs2, s2) ∧
    Forall2 (λ a b, pairedItem a = pairedItem b ∧
                    ∃ t, reads (st_heap s2) (json a) t ∧ reads (st_heap s2) (json b) t)
      outs1 outs2 ∧
    Forall (λ it, ∀ t, reads (st_heap s) (json it) t → reads (st_heap s2) (json it) t)
      items.
Proof.
  intros Hprim Hall He1.
  destruct (enrichItems_inv _ _ _ _ _ _ _ _ He1) as (h1 & -> & S1 & Ho1).
  destruct (Ho1 outs1 eq_refl) as (news1 & Hn1 & Hlen1 & Htag1). clear Ho1.
  simpl in Hn1. subst news1.
  destruct (enrichItems_json this tok items 0 [] (with_heap h1 s) Hprim)
    as (outs2 & s2 & He2 & S2 & HF2).
  { eapply Forall_impl; [exact Hall|]. intros it (ps & Hr & Hok).
    exists ps. split; [by eapply reads_weaken|done]. }
  simpl in He2. exists outs2, s2. split; [done|].
  destruct (enrichItems_inv _ _ _ _ _ _ _ _ He2) as (h2 & -> & _ & Ho2).
  destruct (Ho2 outs2 eq_refl) as (news2 & Hn2 & Hlen2 & Htag2). clear Ho2.
  simpl in Hn2. subst news2. cbn [st_heap with_heap] in *. split.
  - apply Forall2_same_length_lookup_2; [congruence|].
    intros k a b Ha Hb.
    destruct (Htag1 k a Ha) as [Hta _]. destruct (Htag2 k b Hb) as [Htb _].
    split; [congruence|].
    destruct (lookup_lt_is_Some_2 items k) as [it Hit].
    { rewrite <-Hlen1. by eapply lookup_lt_Some. }
    destruct (proj1 (Forall_lookup _ _) Hall k it Hit) as (ps & Hr & Hok).
    destruct (enrichItems_position this tok items 0 [] s outs1 (with_heap h1 s)
                Hprim He1 k it ps Hit Hr Hok) as (a' & Ha' & _ & Hra).
    simpl in Ha'. rewrite Ha in Ha'. injection Ha' as <-.
    destruct (Forall2_lookup_l _ _ _ _ _ HF2 Hit) as (b' & Hb' & Hrb).
    rewrite Hb in Hb'. injection Hb' as <-.
    eexists. split; [|apply Hrb; by eapply reads_weaken].
    by eapply reads_weaken.
  - apply Forall_forall. intros it _ t Hr.
    eapply reads_weaken; [|exact Hr]. by etrans.
Qed.

Lemma enrichment_is_repeatable_witness :
  let this := steady_host (VRef 1) [] "accessToken" "" false in
  let items := [Item (VRef 5) VUndef None] in
  let s1 := with_heap (<[6 := CObj [("foo", VNum 1); ("accessToken", VStr "abc123")]]>
                         foo_store) (start foo_store) in
  ∃ outs2 s2,
    enrichItems this (VStr "abc123") 0 items [] s1 = (Ok outs2, s2) ∧
    Forall2 (λ a b, pairedItem a = pairedItem b ∧
                    ∃ t, reads (st_heap s2) (json a) t ∧ reads (st_heap s2) (json b) t)
      [Item (VRef 6) VUndef (Some 0)] outs2 ∧
    Forall (λ it, ∀ t, reads foo_store (json it) t → reads (st_heap s2) (json it) t)
      items.
Proof.
  intros this items s1.
  apply (enrichment_is_repeatable this (VStr "abc123") items
           [Item (VRef 6) VUndef (Some 0)] (start foo_store) s1).
  - reflexivity.
  - repeat constructor. exists [("foo", TNum 1)]. split; [by exists 1|reflexivity].
  - vm_compute. reflexivity.
Defined.

(** * Properties of the earlier build *)

Section dist_properties.
Context {W : Type}.
Implicit Types (s : state W) (this : IExecuteFunctions W).

Lemma assigned_idem field tok c :
  assigned field tok (assigned field tok c) = assigned field tok c.
Proof. destruct c; simpl; [|done..]. by rewrite store_prop_idem. Qed.

Lemma put_prop_spec h v k x h' :
  put_prop h v k x = Ok h' →
  (is_prim v = true ∧ k = "__proto__" ∧ h' = h) ∨
  ∃ l c, v = VRef l ∧ h !! l = Some c ∧ h' = <[l := assigned k x c]> h.
Proof.
  intros H. destruct v as [| | | | | |l]; try done.
  1-4: unfold put_prop in H; destruct (String.eqb_spec k "__proto__"); [|done];
    injection H as <-; by left.
  right. destruct (h !! l) as [c|] eqn:El.
  2: { unfold put_prop in H. by rewrite El in H. }
  exists l, c. split_and!; [done..|]. destruct c as [ps|xs|e]; simpl.
  - by apply put_prop_obj.
  - unfold put_prop in H. rewrite El in H. rewrite insert_id by done.
    destruct (String.eqb k "__proto__"); [by apply set_prototype_Ok in H|].
    by injection H.
  - unfold put_prop in H. rewrite El in H. rewrite insert_id by done.
    by injection H.
Qed.

(** What the body of the [try] does to the store: it assigns the token in
    the cell of the item's data, also when serialising the data then
    raises; under [__proto__] it passes over data that is a boolean, a
    number or a string. *)
Lemma tagItem_dist_spec this tok it s r s' :
  tagItem_dist this tok it s = (r, s') →
  (s' = s ∧
   ((∃ t, r = Throw t) ∨
    (param_accessTokenFieldName this = "__proto__" ∧ is_prim (json it) = true))) ∨
  ∃ l c, json it = VRef l ∧ st_heap s !! l = Some c ∧
    s' = with_heap (<[l := assigned (param_accessTokenFieldName this) tok c]>
                      (st_heap s)) s.
Proof.
  unfold tagItem_dist, bind, assign, get_heap, lift_result, ret.
  destruct (put_prop (st_heap s) (json it) (param_accessTokenFieldName this) tok)
    as [h'|e] eqn:Eput.
  - destruct (put_prop_spec _ _ _ _ _ Eput) as [(Hp & Hf & ->)|(l & c & Hl & Hc & ->)];
      cbn [st_heap with_heap].
    + rewrite with_heap_id.
      destruct (JSON_stringify _ (json it)) as [o|e]; intros [= <- <-]; left; eauto.
    + destruct (JSON_stringify _ (json it)) as [o|e]; intros [= <- <-]; right; eauto.
  - intros [= <- <-]. left. eauto.
Qed.

(** The body of the [try] raises [Error] instances only. *)
Lemma tagItem_dist_raises this tok it s t s' :
  tagItem_dist this tok it s = (Throw t, s') → ∃ e : exn, t = Err e.
Proof.
  unfold tagItem_dist, bind, assign, get_heap, lift_result, ret.
  destruct (put_prop (st_heap s) (json it) (param_accessTokenFieldName this) tok)
    as [h'|t'] eqn:Eput.
  - cbn [st_heap with_heap].
    destruct (JSON_stringify h' (json it)) as [o|t'] eqn:Ej; [done|].
    intros [= <- _]. by eapply JSON_stringify_raises.
  - intros [= <- _]. by eapply put_prop_raises.
Qed.

(** The [catch] of the earlier build on an [Error] instance. *)
Lemma itemFailed_dist_error this items i (e : exn) s :
  itemFailed_dist this items i e s =
  (if continueOnFail this then
     let* j := new_cell
                 (CObj [("error", VStr (or_default (exn_message e) "Unknown error"))]) in
     ret (items ++ [{| json := j; binary := VUndef; pairedItem := Some i |}])
   else
     throw (match exn_context e with
            | Some context =>
                set_context e (set_prop "itemIndex" (VNum (Z.of_nat i)) context)
            | None =>
                NodeOperationError (exn_message e) [("itemIndex", VNum (Z.of_nat i))]
            end)) s.
Proof.
  unfold itemFailed_dist, bind, lift_result, new_cell, ret, throw.
  simpl. destruct (continueOnFail this); [done|].
  by destruct (exn_context e).
Qed.

Lemma enrichInPlace_abort_mode this tok fuel : ∀ i items s outs s',
  continueOnFail this = false →
  enrichInPlace fuel this tok i items s = Some (Ok outs, s') →
  outs = items ∧
  dom (st_heap s') = dom (st_heap s) ∧
  tagged_or_same (param_accessTokenFieldName this) tok (st_heap s) (st_heap s') ∧
  (∀ k it, i ≤ k → items !! k = Some it →
     (param_accessTokenFieldName this = "__proto__" ∧ is_prim (json it) = true) ∨
     ∃ l c, json it = VRef l ∧ st_heap s !! l = Some c ∧
       st_heap s' !! l = Some (assigned (param_accessTokenFieldName this) tok c)) ∧
  (∀ l, (∀ k it, i ≤ k → items !! k = Some it → json it ≠ VRef l) →
     st_heap s' !! l = st_heap s !! l).
Proof.
  induction fuel as [|fuel IH]; intros i items s outs s' Hc; [done|]. simpl.
  destruct (items !! i) as [it|] eqn:Ei.
  2: { intros [= <- <-]. split_and!; [done..| | |done].
       - intros l c Hl. by left.
       - intros k it' Hk Hit. apply lookup_ge_None in Ei.
         apply lookup_lt_Some in Hit. lia. }
  unfold try_catch, bind at 1.
  destruct (tagItem_dist this tok it s) as [[[]|t] s1] eqn:Et.
  2: { destruct (tagItem_dist_raises _ _ _ _ _ _ Et) as [e ->].
       rewrite itemFailed_dist_error, Hc. by intros [=]. }
  unfold ret. intros He.
  destruct (IH _ _ _ _ _ Hc He) as (-> & Hdom & Hts & Hitems & Hframe).
  destruct (tagItem_dist_spec _ _ _ _ _ _ Et)
    as [[-> [[t [=]]|[Hf Hp]]]|(l & c & Hl & Hcell & ->)];
    set (f := param_accessTokenFieldName this) in *.
  - (* the data is a primitive and was passed over *)
    split_and!; [done..| |].
    + intros k it' Hk Hit'. destruct (decide (k = i)) as [->|Hne].
      * rewrite Ei in Hit'. injection Hit' as <-. by left.
      * apply (Hitems k it'); [lia|done].
    + intros l0 Hno. apply Hframe. intros k it' Hk. apply Hno. lia.
  - set (h1 := <[l := assigned f tok c]> (st_heap s)) in *.
    cbn [st_heap with_heap] in *.
    assert (dom h1 = dom (st_heap s)) as Hdom1.
    { subst h1. apply dom_insert_lookup_L. eauto. }
    assert (tagged_or_same f tok (st_heap s) h1) as Hts1.
    { intros l0 c0 Hl0. subst h1. destruct (decide (l0 = l)) as [->|Hne].
      - right. rewrite lookup_insert_eq. congruence.
      - left. by rewrite lookup_insert_ne. }
    assert (tagged_or_same f tok (st_heap s) (st_heap s')) as Hts'.
    { intros l0 c0 Hl0. destruct (Hts1 l0 c0 Hl0) as [H1|H1].
      - apply Hts. exact H1.
      - right. destruct (Hts _ _ H1) as [H2|H2]; [done|].
        by rewrite assigned_idem in H2. }
    split_and!; [done|congruence|done| |].
    + intros k it' Hk Hit'. destruct (decide (k = i)) as [->|Hne].
      * rewrite Ei in Hit'. injection Hit' as <-. right. exists l, c.
        split_and!; [done..|].
        destruct (Hts l (assigned f tok c)) as [H2|H2].
        -- subst h1. by rewrite lookup_insert_eq.
        -- done.
        -- by rewrite assigned_idem in H2.
      * destruct (Hitems k it' ltac:(lia) Hit') as [?|(l' & c' & Hl' & Hc' & Hps')];
          [by left|].
        right. destruct (decide (l' = l)) as [->|Hll].
        -- exists l, c. split_and!; [done..|].
           subst h1. rewrite lookup_insert_eq in Hc'. injection Hc' as <-.
           by rewrite assigned_idem in Hps'.
        -- exists l', c'. split_and!; [done| |done].
           subst h1. by rewrite lookup_insert_ne in Hc'.
    + intros l0 Hno. rewrite Hframe.
      * subst h1. rewrite lookup_insert_ne; [done|].
        intros ->. by apply (Hno i it).
      * intros k it' Hk. apply Hno. lia.
Qed.

Lemma enrichInPlace_abort_total this tok fuel : ∀ i items s,
  continueOnFail this = false →
  length items - i < fuel →
  is_Some (enrichInPlace fuel this tok i items s).
Proof.
  induction fuel as [|fuel IH]; intros i items s Hc Hf; [lia|]. simpl.
  destruct (items !! i) as [it|] eqn:Ei; [|eauto].
  apply lookup_lt_Some in Ei.
  unfold try_catch, bind at 1.
  destruct (tagItem_dist this tok it s) as [[[]|t] s1] eqn:Et.
  - unfold ret. apply IH; [done|lia].
  - destruct (tagItem_dist_raises _ _ _ _ _ _ Et) as [e ->].
    rewrite itemFailed_dist_error, Hc. unfold throw. eauto.
Qed.










(** The steps of the earlier build before its loop. *)
Lemma execute_dist_unfold fuel this s c w :
  getCredentials this "oAuth2Api" (st_world s) = (Ok c, w) →
  nullish c = false →
  execute_dist fuel this s =
    let s1 := State (st_heap s) w (CallGetCredentials "oAuth2Api" :: st_calls s)
                    (dummyUrl s) (refreshedCredentials s) in
    if truthy (first_truthy (recognized_shapes (st_heap s) c))
    then enrichInPlace fuel this (first_truthy (recognized_shapes (st_heap s) c)) 0
           (getInputData this) s1
    else Some (Throw (NodeOperationError no_token_message_dist []), s1).
Proof.
  intros Hg Hn. unfold execute_dist, call_getCredentials. rewrite Hg, Hn.
  cbn [st_heap negb].
  destruct (probeToken_dist_first (st_heap s) c) as [Ht Heq]. rewrite <-Ht.
  destruct (truthy (probeToken_dist (st_heap s) c)) eqn:E; simpl; [|done].
  by rewrite Heq.
Qed.



End dist_properties.

(** X15: the earlier build probes all six shapes.  When its one fetch
    returns a record in which none of the six is truthy, the run ends with
    the no-token error before any item is touched: the store is as it
    was. *)
Theorem dist_tokenless_record_is_fatal {W} (fuel : nat) (this : IExecuteFunctions W)
    (s : state W) (c : value) (w : W) :
  getCredentials this "oAuth2Api" (st_world s) = (Ok c, w) →
  nullish c = false →
  Forall (λ v, truthy v = false) (recognized_shapes (st_heap s) c) →
  ∃ s', execute_dist fuel this s
          = Some (Throw (NodeOperationError no_token_message_dist []), s') ∧
        st_heap s' = st_heap s ∧
        st_calls s' = CallGetCredentials "oAuth2Api" :: st_calls s.
Proof.
  intros Hg Hn Hf. rewrite (execute_dist_unfold fuel this s c w Hg Hn).
  rewrite (first_truthy_falsy _ Hf). cbn [truthy]. eauto.
Qed.

Lemma dist_tokenless_record_is_fatal_witness :
  ∃ s', execute_dist 2
          (steady_host (VRef 1) [Item (VRef 5) VUndef None] "accessToken" "" false)
          (start tokenless_store)
          = Some (Throw (NodeOperationError no_token_message_dist []), s') ∧
        st_heap s' = tokenless_store ∧
        st_calls s' = [CallGetCredentials "oAuth2Api"].
Proof.
  apply (dist_tokenless_record_is_fatal 2
           (steady_host (VRef 1) [Item (VRef 5) VUndef None] "accessToken" "" false)
           (start tokenless_store) (VRef 1) ()); [reflexivity|reflexivity|].
  vm_compute. repeat constructor.
Defined.

(** X16: the earlier build writes into its inputs.  Without
    [continueOnFail], a run whose fetch returns a record with a truthy token
    under one of the six shapes comes to an end within one test of the loop
    condition per item and one more; when it returns, it returns the input
    items themselves, the data of every item is an existing object (or,
    when the field name is [__proto__], possibly a boolean, a number or a
    string), each plain object among them has had the token assigned under
    the configured name in its own cell (stored, except under [__proto__],
    where it is stored only over an own property of that name), no cell was
    created and the cells that are no item's data are as they were. *)
Theorem dist_tags_inputs_in_place {W} (fuel : nat) (this : IExecuteFunctions W)
    (s : state W) (c : value) (w : W) :
  getCredentials this "oAuth2Api" (st_world s) = (Ok c, w) →
  nullish c = false →
  truthy (first_truthy (recognized_shapes (st_heap s) c)) = true →
  continueOnFail this = false →
  length (getInputData this) < fuel →
  ∃ r s', execute_dist fuel this s = Some (r, s') ∧
    ∀ outs, r = Ok outs →
      outs = getInputData this ∧
      dom (st_heap s') = dom (st_heap s) ∧
      (∀ it, it ∈ getInputData this →
         (param_accessTokenFieldName this = "__proto__" ∧ is_prim (json it) = true) ∨
         ∃ l, json it = VRef l ∧ is_Some (st_heap s !! l) ∧
           ∀ ps, st_heap s !! l = Some (CObj ps) →
             st_heap s' !! l
               = Some (CObj (store_prop (param_accessTokenFieldName this)
                               (first_truthy (recognized_shapes (st_heap s) c)) ps))) ∧
      (∀ l, (∀ it, it ∈ getInputData this → json it ≠ VRef l) →
         st_heap s' !! l = st_heap s !! l).
Proof.
  intros Hg Hn Ht Hc Hf. rewrite (execute_dist_unfold fuel this s c w Hg Hn), Ht.
  cbv zeta.
  set (tok := first_truthy (recognized_shapes (st_heap s) c)).
  set (s1 := State (st_heap s) w _ _ _).
  destruct (enrichInPlace_abort_total this tok fuel 0 (getInputData this) s1 Hc)
    as [[r s'] Hrun]; [lia|].
  exists r, s'. split; [done|]. intros outs ->.
  destruct (enrichInPlace_abort_mode this tok fuel 0 _ _ _ _ Hc Hrun)
    as (-> & Hdom & _ & Hitems & Hframe).
  split_and!; [done|done| |].
  - intros it [k Hk]%list_elem_of_lookup_1.
    destruct (Hitems k it) as [?|(l & c0 & Hl & Hc0 & Hc')]; [lia|done|by left|].
    unfold s1 in Hc0. cbn [st_heap] in Hc0.
    right. exists l. split_and!; [done|by eexists|].
    intros ps Hps. rewrite Hps in Hc0. injection Hc0 as <-.
    exact Hc'.
  - intros l Hno. apply Hframe. intros k it _ Hk. apply Hno.
    by eapply list_elem_of_lookup_2.
Qed.

Lemma dist_tags_inputs_in_place_witness :
  ∃ r s', execute_dist 3
            (steady_host (VRef 1) [Item (VRef 4) VUndef None; Item (VRef 4) VUndef None]
               "accessToken" "" false)
            (start nested_oauth_batch_store) = Some (r, s') ∧
    ∀ outs, r = Ok outs →
      outs = [Item (VRef 4) VUndef None; Item (VRef 4) VUndef None] ∧
      dom (st_heap s') = dom nested_oauth_batch_store ∧
      (∀ it, it ∈ [Item (VRef 4) VUndef None; Item (VRef 4) VUndef None] →
         ("accessToken" = "__proto__" ∧ is_prim (json it) = true) ∨
         ∃ l, json it = VRef l ∧ is_Some (nested_oauth_batch_store !! l) ∧
           ∀ ps, nested_oauth_batch_store !! l = Some (CObj ps) →
             st_heap s' !! l
               = Some (CObj (store_prop "accessToken"
                               (first_truthy
                                  (recognized_shapes nested_oauth_batch_store (VRef 1)))
                               ps))) ∧
      (∀ l, (∀ it, it ∈ [Item (VRef 4) VUndef None; Item (VRef 4) VUndef None] →
               json it ≠ VRef l) →
         st_heap s' !! l = nested_oauth_batch_store !! l).
Proof.
  apply (dist_tags_inputs_in_place 3
           (steady_host (VRef 1) [Item (VRef 4) VUndef None; Item (VRef 4) VUndef None]
              "accessToken" "" false)
           (start nested_oauth_batch_store) (VRef 1) ());
    [reflexivity|reflexivity|reflexivity|reflexivity|simpl; lia].
Defined.




